(** * Athena particle orb: audio features, mode state machine, renderer

    A shallow embedding of the TypeScript client of the repository:

    - [client/src/hooks/useAudioAnalyzer.ts]  (module [AudioAnalyzer])
    - [client/src/hooks/useOrbState.ts]       (module [OrbState])
    - [client/src/components/ParticleOrb.tsx]  (module [ParticleOrb])

    JavaScript numbers are modelled by exact rationals ([Q]); the one
    irrational operation of the analyzer, [Math.sqrt], is taken in the
    reals.  Indices and byte samples are integers ([Z]).  Host services
    the code calls but does not define ([setTimeout]/[clearTimeout],
    [Math.sin], [Math.cos], [Math.random]) are modelled explicitly:
    timers by a queue owned by the host, the trigonometric functions and
    the random source as parameters. *)

From Stdlib Require Import ZArith QArith Qround List Sorted Permutation Bool Lia.
From Stdlib Require Import Reals Qreals Lra Lqa.
Import ListNotations.

Open Scope Z_scope.

(** The type [OrbMode] of [types.ts]. *)
Inductive OrbMode : Type := idle | listening | thinking | speaking.

Definition OrbMode_eqb (a b : OrbMode) : bool :=
  match a, b with
  | idle, idle | listening, listening
  | thinking, thinking | speaking, speaking => true
  | _, _ => false
  end.

(** Half-open integer interval [lo, hi), the index set of
    [for (let i = lo; i < hi; i++)]. *)
Definition range (lo hi : Z) : list Z :=
  map (fun k => lo + Z.of_nat k) (seq 0 (Z.to_nat (hi - lo))).

(** * Feature extractor *)
Module AudioAnalyzer.

(** [timeDomainData] and [frequencyData] are [Uint8Array]s: lists of
    integers, each in 0..255. *)
Definition Uint8Array := list Z.

Definition is_uint8 (v : Z) : Prop := 0 <= v <= 255.

Definition length (a : Uint8Array) : Z := Z.of_nat (List.length a).

(** [a[i]] for an index inside the array. *)
Definition get (a : Uint8Array) (i : Z) : Z := nth (Z.to_nat i) a 0.

(** ** Amplitude *)

(** [(timeDomainData[i] - 128) / 128] *)
Definition normalized (v : Z) : Q := inject_Z (v - 128) / 128.

(** The loop [sum += normalized * normalized] over the whole buffer. *)
Definition sumSquares (timeDomainData : Uint8Array) : Q :=
  fold_left (fun sum v => sum + normalized v * normalized v)%Q
            timeDomainData 0%Q.

(** [sum / timeDomainData.length] *)
Definition meanSquare (timeDomainData : Uint8Array) : Q :=
  (sumSquares timeDomainData / inject_Z (length timeDomainData))%Q.

(** [Math.sqrt(sum / timeDomainData.length)].  On an empty buffer the
    source computes 0/0; an [AnalyserNode] never yields one
    (its [frequencyBinCount] is at least 16), and the statements below
    are about non-empty buffers. *)
Definition amplitude (timeDomainData : Uint8Array) : R :=
  sqrt (Q2R (meanSquare timeDomainData)).

(** ** Frequency bands *)

(** [(audioContextRef.current?.sampleRate || 44100) / 2]: the fallback
    is taken when there is no context and when the rate is falsy. *)
Definition nyquist (sampleRate : option Q) : Q :=
  (match sampleRate with
   | Some r => if Qeq_bool r 0 then 44100 else r
   | None => 44100
   end / 2)%Q.

Section Bands.
Variable nyq : Q.
Variable binCount : Z.

Definition binWidth : Q := (nyq / inject_Z binCount)%Q.

Definition bassEnd : Z := Z.min (Qfloor (250 / binWidth)) binCount.
Definition midStart : Z := bassEnd.
Definition midEnd : Z := Z.min (Qfloor (2000 / binWidth)) binCount.
Definition trebleStart : Z := midEnd.
Definition vadStart : Z := Qfloor (300 / binWidth).
Definition vadEnd : Z := Z.min (Qfloor (3400 / binWidth)) binCount.

(** The bins each band's loop visits. *)
Definition bassBins : list Z := range 0 bassEnd.
Definition midBins : list Z := range midStart midEnd.
Definition trebleBins : list Z := range trebleStart binCount.
Definition vadBins : list Z := range vadStart vadEnd.
End Bands.

(** [for (i = lo; i < hi; i++) sum += frequencyData[i]] *)
Definition sumBins (frequencyData : Uint8Array) (bins : list Z) : Z :=
  fold_left (fun sum i => sum + get frequencyData i) bins 0.

(** [hi > lo ? sum / ((hi - lo) * 255) : 0] *)
Definition bandMean (sum lo hi : Z) : Q :=
  if lo <? hi then (inject_Z sum / inject_Z ((hi - lo) * 255))%Q else 0%Q.

Record FrequencyBands : Type :=
  { bass : Q; mid : Q; treble : Q }.

(** What one tick of [analyze] hands to [setAudioData] (the two raw
    buffers are copied through unchanged). *)
Record Analysis : Type :=
  { an_amplitude : R;
    an_frequencyBands : FrequencyBands;
    an_isVoiceActive : bool }.

Definition analyze (vadThreshold : Q) (sampleRate : option Q)
    (frequencyData timeDomainData : Uint8Array) : Analysis :=
  let binCount := length frequencyData in
  let nyq := nyquist sampleRate in
  let bassSum := sumBins frequencyData (bassBins nyq binCount) in
  let midSum := sumBins frequencyData (midBins nyq binCount) in
  let trebleSum := sumBins frequencyData (trebleBins nyq binCount) in
  let vadSum := sumBins frequencyData (vadBins nyq binCount) in
  let vadLevel :=
    bandMean vadSum (vadStart nyq binCount) (vadEnd nyq binCount) in
  {| an_amplitude := amplitude timeDomainData;
     an_frequencyBands :=
       {| bass := bandMean bassSum 0 (bassEnd nyq binCount);
          mid := bandMean midSum (midStart nyq binCount) (midEnd nyq binCount);
          treble := bandMean trebleSum (trebleStart nyq binCount) binCount |};
     an_isVoiceActive := negb (Qle_bool vadLevel vadThreshold) |}.

End AudioAnalyzer.

(** * Mode state machine *)
Module OrbState.

Record UseOrbStateOptions : Type :=
  { listeningTimeout : Z;
    thinkingTimeout : Z;
    autoIdle : bool }.

Definition DEFAULT_OPTIONS : UseOrbStateOptions :=
  {| listeningTimeout := 2000; thinkingTimeout := 30000; autoIdle := true |}.

(** ** The host's timers

    [setTimeout(cb, delay)] registers a timer and returns a fresh positive
    handle; [clearTimeout(id)] removes the timer with that handle, and does
    nothing when there is none.  Every callback the hook registers is
    [() => setModeState('idle')], so a pending timer is its handle and the
    instant it is due. *)
Record Timer : Type :=
  { timer_id : Z;
    timer_due : Z }.

(** Each call into the hook and each timer callback is one step on the
    hook's state.  The refs are read live by every callback.  The [mode]
    is not: [updateVoiceActivity] closes over the [mode] of the render
    that made it ([useCallback] with [mode] among its dependencies), and
    a call can come from a render older than the last transition.  So a
    call of [updateVoiceActivity] carries the mode its callback closed
    over, whatever the hook's mode is by then. *)

(** The hook's state ([mode], [timeoutRef], [lastVoiceActivityRef]) and
    the part of the host it acts on: the clock ([Date.now()], in ms), the
    pending timers, the next handle [setTimeout] returns. *)
Record State : Type :=
  { mode : OrbMode;
    timeoutRef : option Z;
    lastVoiceActivityRef : Z;
    now : Z;
    timers : list Timer;
    nextTimerId : Z }.

Definition init : State :=
  {| mode := idle; timeoutRef := None; lastVoiceActivityRef := 0;
     now := 0; timers := []; nextTimerId := 1 |}.

Definition setModeState (m : OrbMode) (s : State) : State :=
  {| mode := m; timeoutRef := timeoutRef s;
     lastVoiceActivityRef := lastVoiceActivityRef s;
     now := now s; timers := timers s; nextTimerId := nextTimerId s |}.

Definition set_timeoutRef (r : option Z) (s : State) : State :=
  {| mode := mode s; timeoutRef := r;
     lastVoiceActivityRef := lastVoiceActivityRef s;
     now := now s; timers := timers s; nextTimerId := nextTimerId s |}.

(** [lastVoiceActivityRef.current = Date.now()] *)
Definition touchVoiceActivity (s : State) : State :=
  {| mode := mode s; timeoutRef := timeoutRef s;
     lastVoiceActivityRef := now s;
     now := now s; timers := timers s; nextTimerId := nextTimerId s |}.

Definition clearTimeout (id : Z) (s : State) : State :=
  {| mode := mode s; timeoutRef := timeoutRef s;
     lastVoiceActivityRef := lastVoiceActivityRef s;
     now := now s;
     timers := filter (fun tm => negb (timer_id tm =? id)) (timers s);
     nextTimerId := nextTimerId s |}.

(** [setTimeout(() => setModeState('idle'), delay)]; the handle returned
    is [nextTimerId s]. *)
Definition setTimeout (delay : Z) (s : State) : State :=
  {| mode := mode s; timeoutRef := timeoutRef s;
     lastVoiceActivityRef := lastVoiceActivityRef s;
     now := now s;
     timers := timers s
               ++ [{| timer_id := nextTimerId s; timer_due := now s + delay |}];
     nextTimerId := nextTimerId s + 1 |}.

(** [timeoutRef.current = setTimeout(..., delay)] *)
Definition armTimeout (delay : Z) (s : State) : State :=
  set_timeoutRef (Some (nextTimerId s)) (setTimeout delay s).

(** ** The hook's operations *)

(** [if (timeoutRef.current) { clearTimeout(...); timeoutRef.current = null }]:
    a null ref and the falsy handle 0 skip the body. *)
Definition clearTimeouts (s : State) : State :=
  match timeoutRef s with
  | Some id => if id =? 0 then s else set_timeoutRef None (clearTimeout id s)
  | None => s
  end.

Section Hook.
Variable opts : UseOrbStateOptions.

Definition setMode (newMode : OrbMode) (s : State) : State :=
  setModeState newMode (clearTimeouts s).

Definition startListening (s : State) : State :=
  let s := touchVoiceActivity (setModeState listening (clearTimeouts s)) in
  if autoIdle opts then armTimeout (listeningTimeout opts) s else s.

Definition stopListening (s : State) : State :=
  setModeState idle (clearTimeouts s).

Definition startThinking (s : State) : State :=
  armTimeout (thinkingTimeout opts)
             (setModeState thinking (clearTimeouts s)).

Definition startSpeaking (s : State) : State :=
  setModeState speaking (clearTimeouts s).

Definition stopSpeaking (s : State) : State :=
  setModeState idle (clearTimeouts s).

Definition reset (s : State) : State :=
  setModeState idle (clearTimeouts s).

(** [renderedMode] is the [mode] the callback closed over. *)
Definition updateVoiceActivity (renderedMode : OrbMode) (isActive : bool)
    (s : State) : State :=
  if negb (OrbMode_eqb renderedMode listening) then s
  else if isActive then
    let s := clearTimeouts (touchVoiceActivity s) in
    if autoIdle opts then armTimeout (listeningTimeout opts) s else s
  else s.

(** ** The event loop *)

Definition isDue (t : Z) (tm : Timer) : bool := timer_due tm <=? t.

(** The host runs the callback of every timer that is due and drops it
    from the pending ones. *)
Definition runTimers (s : State) : State :=
  let fired := filter (isDue (now s)) (timers s) in
  let s' :=
    {| mode := mode s; timeoutRef := timeoutRef s;
       lastVoiceActivityRef := lastVoiceActivityRef s;
       now := now s;
       timers := filter (fun tm => negb (isDue (now s) tm)) (timers s);
       nextTimerId := nextTimerId s |} in
  fold_left (fun s _ => setModeState idle s) fired s'.

(** [dt] milliseconds pass with no call into the hook. *)
Definition elapse (dt : N) (s : State) : State :=
  runTimers
    {| mode := mode s; timeoutRef := timeoutRef s;
       lastVoiceActivityRef := lastVoiceActivityRef s;
       now := now s + Z.of_N dt;
       timers := timers s; nextTimerId := nextTimerId s |}.

(** The transition operations of the hook. *)
Inductive Op : Type :=
| StartListening | StopListening | StartThinking
| StartSpeaking | StopSpeaking | SetMode (m : OrbMode) | Reset.

Definition call (op : Op) : State -> State :=
  match op with
  | StartListening => startListening
  | StopListening => stopListening
  | StartThinking => startThinking
  | StartSpeaking => startSpeaking
  | StopSpeaking => stopSpeaking
  | SetMode m => setMode m
  | Reset => reset
  end.

(** Everything that can happen to a mounted hook: a transition
    operation, a voice-activity report, time passing, and the cleanup
    effect at unmount. *)
Inductive Event : Type :=
| Call (op : Op)
| UpdateVoiceActivity (renderedMode : OrbMode) (isActive : bool)
| Elapse (dt : N)
| Unmount.

Definition step (s : State) (e : Event) : State :=
  match e with
  | Call op => call op s
  | UpdateVoiceActivity m b => updateVoiceActivity m b s
  | Elapse dt => elapse dt s
  | Unmount => clearTimeouts s
  end.

Definition run (evs : list Event) (s : State) : State :=
  fold_left step evs s.

(** Voice reported active again after each of the given gaps, through
    the callback of a Listening render. *)
Definition voiceEvery (gaps : list N) : list Event :=
  flat_map (fun d => [Elapse d; UpdateVoiceActivity listening true]) gaps.

(** Events that call no transition operation. *)
Definition passive (e : Event) : bool :=
  match e with
  | Call _ | Unmount => false
  | UpdateVoiceActivity _ _ | Elapse _ => true
  end.

(** Passive events that leave the timers alone: time passing, and the
    voice reports that the guards of [updateVoiceActivity] turn away
    (no voice, or a callback of a render that was not Listening). *)
Definition inert (e : Event) : bool :=
  match e with
  | Elapse _ => true
  | UpdateVoiceActivity renderedMode isActive =>
      negb isActive || negb (OrbMode_eqb renderedMode listening)
  | Call _ | Unmount => false
  end.

(** The timers whose callbacks the host runs during a list of events,
    in the order they fire. *)
Fixpoint firings (evs : list Event) (s : State) : list Timer :=
  match evs with
  | [] => []
  | e :: evs' =>
      match e with
      | Elapse dt => filter (isDue (now s + Z.of_N dt)) (timers s)
      | _ => []
      end ++ firings evs' (step s e)
  end.

(** Milliseconds that pass during a list of events. *)
Definition elapsed (evs : list Event) : Z :=
  fold_right (fun e acc =>
                match e with Elapse dt => Z.of_N dt + acc | _ => acc end)
             0 evs.

(** A list of events without its reports of no voice activity. *)
Definition dropSilent (evs : list Event) : list Event :=
filter (fun e => match e with
                 | UpdateVoiceActivity _ false => false
                 | _ => true
                 end) evs.

(** The timer a transition operation arms, as the source reads: one of
    [listeningTimeout] ms for [startListening] under [autoIdle], one of
    [thinkingTimeout] ms for [startThinking], none for the others. *)
Definition armedBy (op : Op) (s : State) : list Timer :=
  match op with
  | StartListening =>
      if autoIdle opts
      then [{| timer_id := nextTimerId s;
               timer_due := now s + listeningTimeout opts |}]
      else []
  | StartThinking =>
      [{| timer_id := nextTimerId s;
          timer_due := now s + thinkingTimeout opts |}]
  | _ => []
  end.

(** The mode a transition operation sets. *)
Definition modeAfter (op : Op) : OrbMode :=
  match op with
  | StartListening => listening
  | StartThinking => thinking
  | StartSpeaking => speaking
  | SetMode m => m
  | StopListening | StopSpeaking | Reset => idle
  end.
End Hook.

(** What ties the hook's ref to the host's queue: the only timer that can
    be pending is the one whose handle [timeoutRef] holds. *)
Record Inv (s : State) : Prop :=
  { inv_next : 0 < nextTimerId s;
    inv_ids : forall tm, In tm (timers s) ->
                0 < timer_id tm < nextTimerId s
                /\ timeoutRef s = Some (timer_id tm);
    inv_one : (List.length (timers s) <= 1)%nat }.

(** Listening, with the fallback timer armed for a full
    [listeningTimeout] from now. *)
Definition listeningArmed (opts : UseOrbStateOptions) (s : State) : Prop :=
  Inv s /\ mode s = listening
  /\ exists id, timers s
                = [{| timer_id := id;
                      timer_due := now s + listeningTimeout opts |}].

End OrbState.

(** * Particle field renderer *)
Module ParticleOrb.

Open Scope Q_scope.

(** [Math.min], [Math.max] and the remainder [%] on numbers. *)
Definition Math_min (a b : Q) : Q := if Qle_bool a b then a else b.
Definition Math_max (a b : Q) : Q := if Qle_bool a b then b else a.

(** [a % b] truncates the quotient towards zero. *)
Definition Qrem (a b : Q) : Q :=
  let q := a / b in
  a - inject_Z (Z.quot (Qnum q) (Zpos (Qden q))) * b.

Record ParticleOrbConfig : Type :=
  { particleCount : Z;
    baseRadius : Q;
    particleSize_min : Q;
    particleSize_max : Q;
    speed : Q }.

Definition DEFAULT_CONFIG : ParticleOrbConfig :=
  {| particleCount := 1500; baseRadius := 120;
     particleSize_min := 1; particleSize_max := 3; speed := 1 |}.

Record Color : Type :=
  { hue : Q; saturation : Q; lightness : Q }.

Definition MODE_COLORS (m : OrbMode) : Color :=
  match m with
  | idle => {| hue := 220; saturation := 60; lightness := 50 |}
  | listening => {| hue := 180; saturation := 80; lightness := 55 |}
  | thinking => {| hue := 270; saturation := 70; lightness := 60 |}
  | speaking => {| hue := 45; saturation := 90; lightness := 55 |}
  end.

Record Params : Type :=
  { radiusScale : Q;
    jitter : Q;
    rotationSpeed : Q;
    pulseSpeed : Q;
    particleAlpha : Q }.

Definition MODE_PARAMS (m : OrbMode) : Params :=
  match m with
  | idle =>
      {| radiusScale := 0.9; jitter := 0.3; rotationSpeed := 0.1;
         pulseSpeed := 0.5; particleAlpha := 0.4 |}
  | listening =>
      {| radiusScale := 1.0; jitter := 0.8; rotationSpeed := 0.3;
         pulseSpeed := 1.5; particleAlpha := 0.7 |}
  | thinking =>
      {| radiusScale := 0.95; jitter := 1.5; rotationSpeed := 0.8;
         pulseSpeed := 3.0; particleAlpha := 0.6 |}
  | speaking =>
      {| radiusScale := 1.1; jitter := 1.0; rotationSpeed := 0.5;
         pulseSpeed := 2.0; particleAlpha := 0.85 |}
  end.

(** [Particle] of [types.ts]; the [velocity] field is never read or
    written after creation and is left out. *)
Record Particle : Type :=
  { p_x : Q; p_y : Q; p_z : Q;
    p_baseX : Q; p_baseY : Q; p_baseZ : Q;
    p_size : Q; p_alpha : Q; p_hue : Q }.

(** The fields of [AudioData] the renderer reads. *)
Record AudioData : Type :=
  { amplitude : Q;
    frequencyBands : AudioAnalyzer.FrequencyBands;
    isVoiceActive : bool }.

Record ModeTransition : Type :=
  { from : OrbMode; to : OrbMode; progress : Q }.

(** The component's refs. *)
Record Refs : Type :=
  { particlesRef : list Particle;
    timeRef : Q;
    modeTransitionRef : ModeTransition;
    prevModeRef : OrbMode }.

(** The refs at mount, for the initial [mode] prop and the particles the
    first effect creates. *)
Definition mount (mode : OrbMode) (particles : list Particle) : Refs :=
  {| particlesRef := particles;
     timeRef := 0;
     modeTransitionRef := {| from := mode; to := mode; progress := 1 |};
     prevModeRef := mode |}.

(** The effect that runs when the [mode] prop changes. *)
Definition modeEffect (mode : OrbMode) (r : Refs) : Refs :=
  if negb (OrbMode_eqb mode (prevModeRef r)) then
    {| particlesRef := particlesRef r;
       timeRef := timeRef r;
       modeTransitionRef :=
         {| from := prevModeRef r; to := mode; progress := 0 |};
       prevModeRef := mode |}
  else r.

Definition lerp (a b t : Q) : Q := a + (b - a) * t.

Definition getModeParams (transition : ModeTransition) : Params :=
  if Qle_bool 1 (progress transition) then MODE_PARAMS (to transition)
  else
    let from := MODE_PARAMS (from transition) in
    let to := MODE_PARAMS (to transition) in
    let t := progress transition in
    {| radiusScale := lerp (radiusScale from) (radiusScale to) t;
       jitter := lerp (jitter from) (jitter to) t;
       rotationSpeed := lerp (rotationSpeed from) (rotationSpeed to) t;
       pulseSpeed := lerp (pulseSpeed from) (pulseSpeed to) t;
       particleAlpha := lerp (particleAlpha from) (particleAlpha to) t |}.

Definition getModeColor (transition : ModeTransition) : Color :=
  if Qle_bool 1 (progress transition) then MODE_COLORS (to transition)
  else
    let from := MODE_COLORS (from transition) in
    let to := MODE_COLORS (to transition) in
    let t := progress transition in
    {| hue := lerp (hue from) (hue to) t;
       saturation := lerp (saturation from) (saturation to) t;
       lightness := lerp (lightness from) (lightness to) t |}.

(** "Update transition progress" in [render]. *)
Definition advanceProgress (transition : ModeTransition) : ModeTransition :=
  if negb (Qle_bool 1 (progress transition)) then
    {| from := from transition; to := to transition;
       progress := Math_min (progress transition + 0.02) 1 |}
  else transition.

(** ** Draw commands *)

Record Circle : Type :=
  { c_x : Q; c_y : Q; c_radius : Q;
    c_hue : Q; c_saturation : Q; c_lightness : Q; c_alpha : Q }.

Inductive DrawCmd : Type :=
| Trail (w h : Q)
| Primary (c : Circle)
| Glow (c : Circle)
| CentralGlow (cx cy radius : Q) (color : Color) (innerAlpha midAlpha : Q).

Record Canvas : Type := { width : Q; height : Q }.

(** [[...particles].sort((a, b) => a.z - b.z)]: a stable sort, ascending
    in [z].  The copy holds the same particle objects as the array in
    [particlesRef]; each is paired here with its index in that array. *)
Fixpoint insertByZ (a : nat * Particle) (l : list (nat * Particle))
  : list (nat * Particle) :=
  match l with
  | [] => [a]
  | b :: l' =>
      if Qle_bool (p_z (snd a)) (p_z (snd b)) then a :: l
      else b :: insertByZ a l'
  end.

(** The order the comparator [a.z - b.z] sorts by. *)
Definition zLe (a b : nat * Particle) : Prop := p_z (snd a) <= p_z (snd b).

Definition sortByZ (l : list (nat * Particle)) : list (nat * Particle) :=
  fold_right insertByZ [] l.

Definition indexed (particles : list Particle) : list (nat * Particle) :=
  combine (seq 0 (List.length particles)) particles.

Definition sortedParticles (particles : list Particle)
  : list (nat * Particle) :=
  sortByZ (indexed particles).

(** Writing through the object at index [i] of the array. *)
Fixpoint store (i : nat) (p : Particle) (particles : list Particle)
  : list Particle :=
  match particles, i with
  | [], _ => []
  | _ :: rest, O => p :: rest
  | q :: rest, S i' => q :: store i' p rest
  end.

Section Render.
(** The host's [Math.sin], [Math.cos], and [Math.random] as the
    sequence of values its successive calls return. *)
Variable Math_sin Math_cos : Q -> Q.
Variable Math_random : nat -> Q.

Variable cfg : ParticleOrbConfig.
Variable audioData : option AudioData.

(** "Audio-reactive parameters": [audioData?.f ?? 0]. *)
Definition amplitudeOf : Q :=
  match audioData with Some d => amplitude d | None => 0 end.
Definition bassOf : Q :=
  match audioData with
  | Some d => AudioAnalyzer.bass (frequencyBands d) | None => 0 end.
Definition midOf : Q :=
  match audioData with
  | Some d => AudioAnalyzer.mid (frequencyBands d) | None => 0 end.
Definition trebleOf : Q :=
  match audioData with
  | Some d => AudioAnalyzer.treble (frequencyBands d) | None => 0 end.
Definition isVoiceActiveOf : bool :=
  match audioData with Some d => isVoiceActive d | None => false end.

(** [400 / (400 + rotatedZ * scale)]; a particle exactly in the eye
    plane (denominator 0) is outside what the rationals model. *)
Definition perspectiveOf (rotatedZ scale : Q) : Q :=
  400 / (400 + rotatedZ * scale).

(** [(perspective - 0.5) * 2] *)
Definition depthAlphaOf (perspective : Q) : Q := (perspective - 0.5) * 2.

(** [Math.max(0, Math.min(1, depthAlpha * params.particleAlpha *
    particle.alpha * (0.7 + amplitude * 0.3)))] *)
Definition finalAlphaOf (params : Params) (depthAlpha alpha : Q) : Q :=
  Math_max 0 (Math_min 1
    (depthAlpha * particleAlpha params * alpha * (0.7 + amplitudeOf * 0.3))).

(** What is fixed for the whole frame when the particle loop starts. *)
Record FrameEnv : Type :=
  { params : Params;
    color : Color;
    centerX : Q;
    centerY : Q;
    effectiveRadius : Q;
    cosRot : Q;
    sinRot : Q;
    pulse : Q }.

(** The body of [for (const particle of sortedParticles)]: the particle
    after its update, and the circles drawn for it.  [k] is the number
    of calls to [Math.random] made so far. *)
Definition drawParticle (env : FrameEnv) (k : nat) (particle : Particle)
  : Particle * list DrawCmd :=
  let jitterAmount :=
    jitter (params env) * (1 + amplitudeOf * 2 + trebleOf * 1.5) in
  let jitterX := (Math_random k - 0.5) * jitterAmount in
  let jitterY := (Math_random (k + 1)%nat - 0.5) * jitterAmount in
  let jitterZ := (Math_random (k + 2)%nat - 0.5) * jitterAmount in
  let audioDisplace := if isVoiceActiveOf then 1 + midOf * 0.5 else 1 in
  let targetX := p_baseX particle * audioDisplace * pulse env in
  let targetY := p_baseY particle * audioDisplace * pulse env in
  let targetZ := p_baseZ particle * audioDisplace * pulse env in
  let x := p_x particle + ((targetX - p_x particle) * 0.1 + jitterX) in
  let y := p_y particle + ((targetY - p_y particle) * 0.1 + jitterY) in
  let z := p_z particle + ((targetZ - p_z particle) * 0.1 + jitterZ) in
  let rotatedX := x * cosRot env - z * sinRot env in
  let rotatedZ := x * sinRot env + z * cosRot env in
  let scale := effectiveRadius env / baseRadius cfg in
  let perspective := perspectiveOf rotatedZ scale in
  let screenX := centerX env + rotatedX * perspective * scale in
  let screenY := centerY env + y * perspective * scale in
  let depthSize :=
    perspective * p_size particle
      * (particleSize_max cfg - particleSize_min cfg)
    + particleSize_min cfg in
  let audioSize := 1 + bassOf * 0.5 + amplitudeOf * 0.3 in
  let finalSize := depthSize * audioSize * scale in
  let depthAlpha := depthAlphaOf perspective in
  let finalAlpha := finalAlphaOf (params env) depthAlpha (p_alpha particle) in
  let hueShift := p_hue particle + trebleOf * 30 in
  let finalHue := Qrem (hue (color env) + hueShift + 360) 360 in
  let saturation := saturation (color env) + midOf * 20 in
  let lightness := lightness (color env) + amplitudeOf * 15 in
  let particle' :=
    {| p_x := x; p_y := y; p_z := z;
       p_baseX := p_baseX particle; p_baseY := p_baseY particle;
       p_baseZ := p_baseZ particle;
       p_size := p_size particle; p_alpha := p_alpha particle;
       p_hue := p_hue particle |} in
  let primary :=
    Primary {| c_x := screenX; c_y := screenY; c_radius := finalSize;
               c_hue := finalHue; c_saturation := saturation;
               c_lightness := lightness; c_alpha := finalAlpha |} in
  let glow :=
    if negb (Qle_bool finalAlpha 0.6) && negb (Qle_bool amplitudeOf 0.1)
    then [Glow {| c_x := screenX; c_y := screenY;
                  c_radius := finalSize * 2;
                  c_hue := finalHue; c_saturation := saturation;
                  c_lightness := lightness + 20;
                  c_alpha := finalAlpha * 0.2 |}]
    else [] in
  (particle', primary :: glow).

(** The particle loop: the array (its objects updated in place), the
    count of random draws, and the commands emitted so far. *)
Definition LoopState : Type := (list Particle * nat * list DrawCmd)%type.

Definition loopBody (env : FrameEnv) (st : LoopState)
    (ip : nat * Particle) : LoopState :=
  let '(particles, k, cmds) := st in
  let '(particle', drawn) := drawParticle env k (snd ip) in
  (store (fst ip) particle' particles, (k + 3)%nat, cmds ++ drawn).

Definition frameEnv (canvas : Canvas) (r : Refs) : FrameEnv :=
  let params := getModeParams (modeTransitionRef r) in
  let color := getModeColor (modeTransitionRef r) in
  let time := timeRef r in
  let audioRadius := 1 + amplitudeOf * 0.3 + bassOf * 0.2 in
  let rotationAngle := time * rotationSpeed params * speed cfg * 0.001 in
  {| params := params;
     color := color;
     centerX := width canvas / 2;
     centerY := height canvas / 2;
     effectiveRadius := baseRadius cfg * radiusScale params * audioRadius;
     cosRot := Math_cos rotationAngle;
     sinRot := Math_sin rotationAngle;
     pulse :=
       Math_sin (time * pulseSpeed params * speed cfg * 0.002) * 0.1 + 1 |}.

(** One call of [render]: the refs afterwards, the number of random
    draws consumed (starting from [k]) and the commands sent to the
    canvas, in order.  Without a canvas the frame is skipped. *)
Definition render (canvas : option Canvas) (k : nat) (r : Refs)
  : Refs * nat * list DrawCmd :=
  match canvas with
  | None => (r, k, [])
  | Some canvas =>
      let env := frameEnv canvas r in
      let transition := advanceProgress (modeTransitionRef r) in
      let '(particles, k', cmds) :=
        fold_left (loopBody env) (sortedParticles (particlesRef r))
                  (particlesRef r, k, [Trail (width canvas) (height canvas)])
      in
      let glowRadius := effectiveRadius env * 0.8 * (1 + amplitudeOf * 0.5) in
      ({| particlesRef := particles;
          timeRef := timeRef r + 16;
          modeTransitionRef := transition;
          prevModeRef := prevModeRef r |},
       k',
       cmds ++ [CentralGlow (centerX env) (centerY env) glowRadius
                            (color env)
                            (0.15 + amplitudeOf * 0.1)
                            (0.05 + amplitudeOf * 0.05)])
  end.
End Render.

(** A snapshot of silence. *)
Definition silence : AudioData :=
  {| amplitude := 0;
     frequencyBands :=
       {| AudioAnalyzer.bass := 0; AudioAnalyzer.mid := 0;
          AudioAnalyzer.treble := 0 |};
     isVoiceActive := false |}.

(** ** A first frame

    The two particles [createParticles(2, 120)] places (coordinates to
    three decimals; size, alpha and hue offset are random draws within
    their ranges), told apart by their hue offsets.  The perspective
    factor [400 / (400 + rotatedZ * scale)] grows as [rotatedZ] falls, so
    of the two [nearParticle], at z = -60, is the one nearer to the
    viewer, and [farParticle], at z = 60, the farther. *)
Definition farParticle : Particle :=
  {| p_x := 103.923; p_y := 0; p_z := 60;
     p_baseX := 103.923; p_baseY := 0; p_baseZ := 60;
     p_size := 2; p_alpha := 0.75; p_hue := -10 |}.

Definition nearParticle : Particle :=
  {| p_x := -76.630; p_y := -70.199; p_z := -60;
     p_baseX := -76.630; p_baseY := -70.199; p_baseZ := -60;
     p_size := 2; p_alpha := 0.75; p_hue := 10 |}.

Definition twoParticles : ParticleOrbConfig :=
  {| particleCount := 2; baseRadius := 120;
     particleSize_min := 1; particleSize_max := 3; speed := 1 |}.

(** The frame is rendered at [timeRef = 0], where both trigonometric
    functions are only asked their value at 0: [Math.sin(0) = 0] and
    [Math.cos(0) = 1].  These polynomials agree with them there. *)
Definition sinAround0 (a : Q) : Q := a - a * a * a / 6.
Definition cosAround0 (a : Q) : Q := 1 - a * a / 2.

(** A sequence of values in [0,1) for [Math.random]. *)
Definition randomCycle (n : nat) : Q :=
  nth (n mod 4) [0.25; 0.75; 0.5; 0] 0.

Definition firstFrame : list DrawCmd :=
  snd (render sinAround0 cosAround0 randomCycle twoParticles None
         (Some {| width := 400; height := 400 |}) 0
         (mount idle [farParticle; nearParticle])).

(** The circle of a draw command, with its numbers in lowest terms. *)
Definition reduced (c : Circle) : Circle :=
  {| c_x := Qred (c_x c); c_y := Qred (c_y c); c_radius := Qred (c_radius c);
     c_hue := Qred (c_hue c); c_saturation := Qred (c_saturation c);
     c_lightness := Qred (c_lightness c); c_alpha := Qred (c_alpha c) |}.

Definition primaryCircles (cmds : list DrawCmd) : list Circle :=
  flat_map (fun cmd => match cmd with Primary c => [reduced c] | _ => [] end)
           cmds.

(** The alpha of a particle's own circle is a valid opacity. *)
Definition primaryAlphaInUnit (cmd : DrawCmd) : Prop :=
  match cmd with
  | Primary c => 0 <= c_alpha c <= 1
  | _ => True
  end.

Definition isPrimary (cmd : DrawCmd) : bool :=
  match cmd with Primary _ => true | _ => false end.

(** The refs a mounted component can hold: those at mount, and those
    left by the mode effect or by a call of [render], whatever the host,
    the props and the canvas are at that call. *)
Inductive reachable : Refs -> Prop :=
| reach_mount (mode : OrbMode) (particles : list Particle) :
    reachable (mount mode particles)
| reach_modeEffect (mode : OrbMode) (r : Refs) :
    reachable r -> reachable (modeEffect mode r)
| reach_render (Math_sin Math_cos : Q -> Q) (Math_random : nat -> Q)
    (cfg : ParticleOrbConfig) (audioData : option AudioData)
    (canvas : option Canvas) (k : nat) (r : Refs) :
    reachable r ->
    reachable
      (fst (fst (render Math_sin Math_cos Math_random cfg audioData
                        canvas k r))).

End ParticleOrb.

(** * Push to talk, and quiet stretches of the mode machine *)
Module PushToTalk.

(** [usePushToTalk].  Each call is one step on the hook's state.
    [startTimeRef] is read live; [isRecording] is not: the three
    callbacks close over the [isRecording] of the render that made them,
    and a call can come from a render older than the last start or stop
    (two presses while the microphone is still being opened both reach
    the [startRecording] of the same render).  So a call carries the
    [isRecording] its callback closed over.

    What the hook tells its owner: [onRecordingStart()] and
    [onRecordingEnd(duration)]. *)
Inductive Callback : Type :=
| OnRecordingStart
| OnRecordingEnd (duration : Z).

(** [isRecording] as the next render will see it, [startTimeRef], and
    the callbacks made so far, oldest first. *)
Record State : Type :=
  { isRecording : bool;
    startTimeRef : option Z;
    calls : list Callback }.

Definition init : State :=
  {| isRecording := false; startTimeRef := None; calls := [] |}.

(** [startRecording], called when [Date.now()] reads [now];
    [renderedRecording] is the [isRecording] the callback closed over. *)
Definition startRecording (renderedRecording : bool) (now : Z) (s : State)
  : State :=
  if negb renderedRecording then
    {| isRecording := true; startTimeRef := Some now;
       calls := calls s ++ [OnRecordingStart] |}
  else s.

(** [stopRecording]: the guard [isRecording && startTimeRef.current]
    fails on a null ref and on the falsy reading 0. *)
Definition stopRecording (renderedRecording : bool) (now : Z) (s : State)
  : State :=
  match startTimeRef s with
  | Some start =>
      if renderedRecording && negb (start =? 0) then
        {| isRecording := false; startTimeRef := None;
           calls := calls s ++ [OnRecordingEnd (now - start)] |}
      else s
  | None => s
  end.

(** [toggleRecording] branches on the same closed-over flag and calls
    the [startRecording] or [stopRecording] of its own render. *)
Definition toggleRecording (renderedRecording : bool) (now : Z) (s : State)
  : State :=
  if renderedRecording then stopRecording renderedRecording now s
  else startRecording renderedRecording now s.

(** A call into the hook, with the flag its callback closed over and the
    clock's reading at the call. *)
Inductive Event : Type :=
| StartRecording (renderedRecording : bool) (now : Z)
| StopRecording (renderedRecording : bool) (now : Z)
| ToggleRecording (renderedRecording : bool) (now : Z).

Definition timeOf (e : Event) : Z :=
  match e with
  | StartRecording _ now | StopRecording _ now | ToggleRecording _ now => now
  end.

Definition renderedOf (e : Event) : bool :=
  match e with
  | StartRecording r _ | StopRecording r _ | ToggleRecording r _ => r
  end.

Definition step (s : State) (e : Event) : State :=
  match e with
  | StartRecording r now => startRecording r now s
  | StopRecording r now => stopRecording r now s
  | ToggleRecording r now => toggleRecording r now s
  end.

Definition run (evs : list Event) (s : State) : State :=
  fold_left step evs s.

(** Every call of the list comes through a callback of the latest
    render: the flag it closed over is the hook's at the call. *)
Fixpoint freshCalls (evs : list Event) (s : State) : bool :=
  match evs with
  | [] => true
  | e :: rest =>
      Bool.eqb (renderedOf e) (isRecording s) && freshCalls rest (step s e)
  end.

(** Starts and ends take turns, a start first. *)
Fixpoint alternating (expectStart : bool) (cs : list Callback) : bool :=
  match cs with
  | [] => true
  | OnRecordingStart :: rest => expectStart && alternating false rest
  | OnRecordingEnd _ :: rest => negb expectStart && alternating true rest
  end.

Definition isStart (c : Callback) : bool :=
  match c with OnRecordingStart => true | OnRecordingEnd _ => false end.

(** Every end comes right after a start ([afterStart] says whether the
    callback before the list was one). *)
Fixpoint endsFollowStarts (afterStart : bool) (cs : list Callback) : bool :=
  match cs with
  | [] => true
  | OnRecordingStart :: rest => endsFollowStarts true rest
  | OnRecordingEnd _ :: rest => afterStart && endsFollowStarts false rest
  end.

(** Whether the last callback is a start ([afterStart] for none). *)
Fixpoint lastIsStart (afterStart : bool) (cs : list Callback) : bool :=
  match cs with
  | [] => afterStart
  | c :: rest => lastIsStart (isStart c) rest
  end.

(** The clock readings of a list of events never go back, and none is
    before [t]. *)
Fixpoint clockFrom (t : Z) (evs : list Event) : Prop :=
  match evs with
  | [] => True
  | e :: rest => t <= timeOf e /\ clockFrom (timeOf e) rest
  end.

(** A reported duration is not negative. *)
Definition durationNonneg (c : Callback) : Prop :=
  match c with
  | OnRecordingStart => True
  | OnRecordingEnd duration => 0 <= duration
  end.

(** What every run from [init] keeps while the clock never goes back and
    never reads before 1: the start time held is a clock reading not
    after [t], and the durations reported are not negative. *)
Record Inv (t : Z) (s : State) : Prop :=
  { inv_start : forall t0, startTimeRef s = Some t0 -> 1 <= t0 <= t;
    inv_durations : Forall durationNonneg (calls s) }.

(** What every run from [init] keeps, whatever the clock and however
    stale the callbacks: the start time is held exactly while recording,
    the last callback is a start exactly while recording, and every end
    comes right after a start. *)
Record Shape (s : State) : Prop :=
  { shape_ref : isRecording s = true <-> startTimeRef s <> None;
    shape_last : lastIsStart false (calls s) = isRecording s;
    shape_ends : endsFollowStarts false (calls s) = true }.

(** What a run of fresh calls keeps besides: the callbacks alternate,
    and there is one more start than ends exactly while recording. *)
Record Paired (s : State) : Prop :=
  { paired_alt : alternating true (calls s) = true;
    paired_parity : Nat.odd (List.length (calls s)) = isRecording s }.

End PushToTalk.

Module OrbQuiet.
Import OrbState.

(** Events in which no voice is heard and nothing is called: time
    passing, and reports of no voice activity. *)
Definition silent (e : Event) : bool :=
  match e with
  | Elapse _ | UpdateVoiceActivity _ false => true
  | _ => false
  end.

(** A pending timer belongs to Listening or to Thinking. *)
Definition timerHasOwner (s : State) : Prop :=
  timers s <> [] -> mode s = listening \/ mode s = thinking.

(** Every voice report of the list comes through the callback of the
    latest render: the mode it closed over is the hook's mode at the
    call. *)
Fixpoint freshCalls (opts : UseOrbStateOptions) (evs : list Event)
    (s : State) : bool :=
  match evs with
  | [] => true
  | e :: rest =>
      match e with
      | UpdateVoiceActivity renderedMode _ => OrbMode_eqb renderedMode (mode s)
      | _ => true
      end && freshCalls opts rest (step opts s e)
  end.

End OrbQuiet.

(** * The particle set and the style of a frame *)
Module ParticleField.
Import ParticleOrb.

Open Scope Q_scope.

(** [x] lies between [a] and [b], whichever is the larger. *)
Definition between (a b x : Q) : Prop :=
  (a <= x <= b) \/ (b <= x <= a).

Definition paramsBetween (a b p : Params) : Prop :=
  between (radiusScale a) (radiusScale b) (radiusScale p)
  /\ between (jitter a) (jitter b) (jitter p)
  /\ between (rotationSpeed a) (rotationSpeed b) (rotationSpeed p)
  /\ between (pulseSpeed a) (pulseSpeed b) (pulseSpeed p)
  /\ between (particleAlpha a) (particleAlpha b) (particleAlpha p).

Definition colorBetween (a b c : Color) : Prop :=
  between (hue a) (hue b) (hue c)
  /\ between (saturation a) (saturation b) (saturation c)
  /\ between (lightness a) (lightness b) (lightness c).

(** What [render] never writes of a particle: its base position, size,
    alpha and hue offset. *)
Definition sameIdentity (p q : Particle) : Prop :=
  p_baseX q = p_baseX p /\ p_baseY q = p_baseY p /\ p_baseZ q = p_baseZ p
  /\ p_size q = p_size p /\ p_alpha q = p_alpha p /\ p_hue q = p_hue p.

(** A glow circle is drawn only over loud audio, and faintly. *)
Definition glowIsFaint (audioData : option AudioData) (cmd : DrawCmd)
  : Prop :=
  match cmd with
  | Glow c => 0.1 < amplitudeOf audioData /\ 0.12 < c_alpha c <= 0.2
  | _ => True
  end.

Definition isGlow (cmd : DrawCmd) : bool :=
  match cmd with Glow _ => true | _ => false end.

(** The hue of a particle's circles is an angle in [0, 360). *)
Definition hueInCircle (cmd : DrawCmd) : Prop :=
  match cmd with
  | Primary c | Glow c => 0 <= c_hue c < 360
  | _ => True
  end.

(** The transition after [n] rendered frames. *)
Definition afterFrames (n : nat) (transition : ModeTransition)
  : ModeTransition :=
  Nat.iter n advanceProgress transition.

(** [params.jitter * (1 + amplitude * 2 + treble * 1.5)], the width of
    the interval a frame's jitter is drawn from. *)
Definition jitterAmountOf (audioData : option AudioData) (p : Params) : Q :=
  jitter p * (1 + amplitudeOf audioData * 2 + trebleOf audioData * 1.5).

(** [isVoiceActive ? 1 + mid * 0.5 : 1] *)
Definition audioDisplaceOf (audioData : option AudioData) : Q :=
  if isVoiceActiveOf audioData then 1 + midOf audioData * 0.5 else 1.

(** After a frame the offset [after] of a coordinate from its target is
    nine tenths of the offset [before], up to half the jitter width. *)
Definition contracts (halfWidth before after : Q) : Prop :=
  - halfWidth <= after - 0.9 * before <= halfWidth.

End ParticleField.

(** * The sphere lattice of [createParticles]

    The positions are built from [Math.sqrt], [Math.acos], [Math.sin]
    and [Math.cos]; like the analyzer's square root they are taken in the
    reals. *)
Module Lattice.

Open Scope R_scope.

Definition goldenRatio : R := (1 + sqrt 5) / 2.

(** [theta], [phi] and [(x, y, z)] of the loop body for index [i]. *)
Definition theta (i : nat) : R := 2 * PI * INR i / goldenRatio.

Definition phi (count i : nat) : R :=
  acos (1 - 2 * (INR i + 0.5) / INR count).

Definition position (count : nat) (radius : R) (i : nat) : R * R * R :=
  (radius * sin (phi count i) * cos (theta i),
   radius * sin (phi count i) * sin (theta i),
   radius * cos (phi count i)).

(** The positions [createParticles(count, radius)] pushes, in order. *)
Definition positions (count : nat) (radius : R) : list (R * R * R) :=
  map (position count radius) (seq 0 count).

End Lattice.

(** * The analysis loop and the output analyzer *)
Module AnalyzerLoop.

Open Scope Q_scope.

(** The head of [analyze] while an analyser is attached:
    [if (now - lastUpdateRef.current < opts.updateRate)] the frame is
    skipped, else [lastUpdateRef.current = now] and a snapshot is taken.
    The result is the new [lastUpdateRef] and whether a snapshot is set. *)
Definition throttle (updateRate lastUpdateRef now : Q) : Q * bool :=
  if negb (Qle_bool updateRate (now - lastUpdateRef))
  then (lastUpdateRef, false)
  else (now, true).

(** The values of [performance.now()] at which snapshots are set, over
    the animation frames at the given times. *)
Fixpoint snapshotTimes (updateRate lastUpdateRef : Q) (frames : list Q)
  : list Q :=
  match frames with
  | [] => []
  | now :: rest =>
      let '(last, taken) := throttle updateRate lastUpdateRef now in
      if taken then now :: snapshotTimes updateRate last rest
      else snapshotTimes updateRate last rest
  end.

(** Two snapshots at least [updateRate] apart. *)
Definition apart (updateRate a b : Q) : Prop := updateRate <= b - a.

(** [isVoiceActive: amplitude > opts.vadThreshold] in
    [useOutputAudioAnalyzer], whose snapshot has the same amplitude as
    the microphone's and all three bands 0. *)
Definition outputIsVoiceActive (vadThreshold : Q)
    (timeDomainData : AudioAnalyzer.Uint8Array) : Prop :=
  (Q2R vadThreshold < AudioAnalyzer.amplitude timeDomainData)%R.

End AnalyzerLoop.

(** * Theorems: feature extractor *)

Lemma OrbMode_eqb_spec (a b : OrbMode) : reflect (a = b) (OrbMode_eqb a b).
Proof. destruct a, b; simpl; constructor; congruence. Qed.

Lemma OrbMode_eqb_refl (a : OrbMode) : OrbMode_eqb a a = true.
Proof. now destruct a. Qed.

Lemma range_length (lo hi : Z) :
  List.length (range lo hi) = Z.to_nat (hi - lo).
Proof. unfold range. now rewrite length_map, length_seq. Qed.

Lemma range_In (lo hi i : Z) : In i (range lo hi) <-> lo <= i < hi.
Proof.
  unfold range. rewrite in_map_iff. split.
  - intros [k [<- Hk]]. apply in_seq in Hk. lia.
  - intros H. exists (Z.to_nat (i - lo)). split; [lia|].
    apply in_seq. lia.
Qed.

Lemma map_seq_shift {A} (f : nat -> A) (a n : nat) :
  map f (seq a n) = map (fun k => f (a + k)%nat) (seq 0 n).
Proof.
  revert a f. induction n as [|n IH]; intros a f; simpl; [reflexivity|].
  rewrite Nat.add_0_r. f_equal.
  rewrite (IH (S a)), (IH 1%nat). apply map_ext. intros k.
  now rewrite Nat.add_succ_comm.
Qed.

Lemma range_app (a b c : Z) :
  a <= b -> b <= c -> range a b ++ range b c = range a c.
Proof.
  intros Hab Hbc. unfold range.
  replace (Z.to_nat (c - a)) with (Z.to_nat (b - a) + Z.to_nat (c - b))%nat
    by lia.
  rewrite seq_app, map_app. f_equal.
  rewrite Nat.add_0_l, (map_seq_shift _ (Z.to_nat (b - a))).
  apply map_ext. intros k. lia.
Qed.

Section BandLemmas.
Open Scope Q_scope.

Lemma binWidth_pos (nyq : Q) (binCount : Z) :
  (0 < binCount)%Z -> 0 < nyq -> 0 < AudioAnalyzer.binWidth nyq binCount.
Proof.
  intros Hn Hq. unfold AudioAnalyzer.binWidth.
  apply Qlt_shift_div_l.
  - change 0 with (inject_Z 0). now rewrite <- Zlt_Qlt.
  - now rewrite Qmult_0_l.
Qed.

(** Dividing by a positive width and flooring keeps the order of the
    band edges. *)
Lemma edge_mono (w a b : Q) :
  0 < w -> a <= b -> (Qfloor (a / w) <= Qfloor (b / w))%Z.
Proof.
  intros Hw Hab. apply Qfloor_resp_le.
  unfold Qdiv. apply Qmult_le_compat_r; [assumption|].
  apply Qlt_le_weak, Qinv_lt_0_compat, Hw.
Qed.

Lemma edge_nonneg (w a : Q) : 0 < w -> 0 <= a -> (0 <= Qfloor (a / w))%Z.
Proof.
  intros Hw Ha. change 0%Z with (Qfloor 0).
  apply Qfloor_resp_le. apply Qle_shift_div_l; [assumption|].
  now rewrite Qmult_0_l.
Qed.
End BandLemmas.

(** Summing over two runs of bins one after the other adds up. *)
Lemma sumBins_app (frequencyData : AudioAnalyzer.Uint8Array)
    (bins1 bins2 : list Z) :
  AudioAnalyzer.sumBins frequencyData (bins1 ++ bins2)
  = AudioAnalyzer.sumBins frequencyData bins1
    + AudioAnalyzer.sumBins frequencyData bins2.
Proof.
  unfold AudioAnalyzer.sumBins. rewrite fold_left_app.
  generalize (fold_left
                (fun sum i => sum + AudioAnalyzer.get frequencyData i)
                bins1 0).
  induction bins2 as [|i bins2 IH] using rev_ind; intros acc.
  - simpl. lia.
  - rewrite !fold_left_app. simpl. rewrite IH. lia.
Qed.

Lemma band_edges_ordered (nyq : Q) (binCount : Z) :
  0 < binCount -> (0 < nyq)%Q ->
  0 <= AudioAnalyzer.bassEnd nyq binCount
  /\ AudioAnalyzer.bassEnd nyq binCount <= AudioAnalyzer.midEnd nyq binCount
  /\ AudioAnalyzer.midEnd nyq binCount <= binCount.
Proof.
  intros Hn Hq.
  pose proof (binWidth_pos nyq binCount Hn Hq) as Hw.
  pose proof (edge_nonneg _ 250 Hw ltac:(discriminate)) as H0.
  pose proof (edge_mono _ 250 2000 Hw ltac:(discriminate)) as H1.
  unfold AudioAnalyzer.bassEnd, AudioAnalyzer.midEnd. lia.
Qed.

(** C1.  For a positive bin count and a positive Nyquist frequency, the
    mid band starts where the bass band ends and the treble band starts
    where the mid band ends; the bins visited by the bass, mid and treble
    loops, in this order, are exactly the bins 0, 1, ..., binCount - 1,
    each once; so every bin belongs to exactly one band, and the three
    band sums together count every bin's magnitude once. *)
Theorem bands_partition_spectrum (nyq : Q) (binCount : Z) :
  0 < binCount -> (0 < nyq)%Q ->
  AudioAnalyzer.midStart nyq binCount = AudioAnalyzer.bassEnd nyq binCount
  /\ AudioAnalyzer.trebleStart nyq binCount = AudioAnalyzer.midEnd nyq binCount
  /\ AudioAnalyzer.bassBins nyq binCount
       ++ AudioAnalyzer.midBins nyq binCount
       ++ AudioAnalyzer.trebleBins nyq binCount
     = range 0 binCount
  /\ (forall i, 0 <= i < binCount ->
       let inBass := In i (AudioAnalyzer.bassBins nyq binCount) in
       let inMid := In i (AudioAnalyzer.midBins nyq binCount) in
       let inTreble := In i (AudioAnalyzer.trebleBins nyq binCount) in
       (inBass /\ ~ inMid /\ ~ inTreble)
       \/ (~ inBass /\ inMid /\ ~ inTreble)
       \/ (~ inBass /\ ~ inMid /\ inTreble))
  /\ forall frequencyData,
       AudioAnalyzer.sumBins frequencyData (AudioAnalyzer.bassBins nyq binCount)
       + AudioAnalyzer.sumBins frequencyData
           (AudioAnalyzer.midBins nyq binCount)
       + AudioAnalyzer.sumBins frequencyData
           (AudioAnalyzer.trebleBins nyq binCount)
       = AudioAnalyzer.sumBins frequencyData (range 0 binCount).
Proof.
  intros Hn Hq.
  destruct (band_edges_ordered nyq binCount Hn Hq) as (H0 & H1 & H2).
  unfold AudioAnalyzer.bassBins, AudioAnalyzer.midBins,
    AudioAnalyzer.trebleBins, AudioAnalyzer.midStart,
    AudioAnalyzer.trebleStart.
  assert (Hcat : range 0 (AudioAnalyzer.bassEnd nyq binCount)
                 ++ range (AudioAnalyzer.bassEnd nyq binCount)
                      (AudioAnalyzer.midEnd nyq binCount)
                 ++ range (AudioAnalyzer.midEnd nyq binCount) binCount
                 = range 0 binCount).
  { rewrite (range_app _ _ _ H1 H2). apply range_app; lia. }
  split; [reflexivity|]. split; [reflexivity|]. split; [exact Hcat|]. split.
  - intros i Hi. cbv zeta. rewrite !range_In. lia.
  - intros frequencyData. rewrite <- Hcat, !sumBins_app. lia.
Qed.

Lemma bands_partition_spectrum_witness :
  0 < 128 /\ (0 < AudioAnalyzer.nyquist None)%Q
  /\ AudioAnalyzer.bassBins (AudioAnalyzer.nyquist None) 128
       ++ AudioAnalyzer.midBins (AudioAnalyzer.nyquist None) 128
       ++ AudioAnalyzer.trebleBins (AudioAnalyzer.nyquist None) 128
     = range 0 128.
Proof.
  assert (Hn : 0 < 128) by lia.
  assert (Hq : (0 < AudioAnalyzer.nyquist None)%Q) by reflexivity.
  split; [exact Hn|]. split; [exact Hq|].
  apply (bands_partition_spectrum (AudioAnalyzer.nyquist None) 128 Hn Hq).
Defined.

(** With the defaults (44100 Hz, 128 bins) the bass band is bin 0, the
    mid band bins 1..10 and the treble band bins 11..127. *)
Example default_band_edges :
  AudioAnalyzer.bassEnd (AudioAnalyzer.nyquist None) 128 = 1
  /\ AudioAnalyzer.midEnd (AudioAnalyzer.nyquist None) 128 = 11.
Proof. split; reflexivity. Qed.

Section AmplitudeLemmas.
Open Scope Q_scope.

Lemma sumSquares_acc (data : AudioAnalyzer.Uint8Array) (acc : Q) :
  Forall (fun v => -1 <= AudioAnalyzer.normalized v <= 1) data ->
  acc <= fold_left
           (fun sum v =>
              sum + AudioAnalyzer.normalized v * AudioAnalyzer.normalized v)
           data acc
  /\ fold_left
       (fun sum v =>
          sum + AudioAnalyzer.normalized v * AudioAnalyzer.normalized v)
       data acc
     <= acc + inject_Z (AudioAnalyzer.length data).
Proof.
  intros H. revert acc.
  induction H as [|v data Hv _ IH]; intros acc; simpl.
  - unfold AudioAnalyzer.length. simpl. change (inject_Z 0) with 0.
    split; Lqa.lra.
  - destruct (IH (acc + AudioAnalyzer.normalized v
                        * AudioAnalyzer.normalized v)) as [Hlo Hhi].
    assert (Hlen : inject_Z (AudioAnalyzer.length (v :: data))
                   == inject_Z (AudioAnalyzer.length data) + 1).
    { unfold AudioAnalyzer.length. simpl List.length.
      rewrite Nat2Z.inj_succ, <- Z.add_1_r, inject_Z_plus. reflexivity. }
    rewrite Hlen.
    set (n := AudioAnalyzer.normalized v) in *.
    assert (0 <= n * n /\ n * n <= 1) by (split; Lqa.nra).
    split; Lqa.lra.
Qed.

Lemma meanSquare_bounds (data : AudioAnalyzer.Uint8Array) :
  data <> [] ->
  Forall (fun v => -1 <= AudioAnalyzer.normalized v <= 1) data ->
  0 <= AudioAnalyzer.meanSquare data <= 1.
Proof.
  intros Hne H.
  destruct (sumSquares_acc data 0 H) as [Hlo Hhi].
  assert (Hn : 0 < inject_Z (AudioAnalyzer.length data)).
  { change 0 with (inject_Z 0). rewrite <- Zlt_Qlt.
    unfold AudioAnalyzer.length. destruct data; [congruence|simpl; lia]. }
  unfold AudioAnalyzer.meanSquare, AudioAnalyzer.sumSquares. split.
  - apply Qle_shift_div_l; [assumption|]. Lqa.lra.
  - apply Qle_shift_div_r; [assumption|]. Lqa.lra.
Qed.
End AmplitudeLemmas.

(** A byte sample, centred and normalized, lies in [-1, 127/128]. *)
Lemma normalized_uint8 (v : Z) :
  AudioAnalyzer.is_uint8 v ->
  (-1 <= AudioAnalyzer.normalized v <= 1)%Q.
Proof.
  unfold AudioAnalyzer.is_uint8, AudioAnalyzer.normalized. intros H.
  split.
  - apply Qle_shift_div_l; [reflexivity|].
    change (-1 * 128)%Q with (inject_Z (-128)). rewrite <- Zle_Qle. lia.
  - apply Qle_shift_div_r; [reflexivity|].
    change (1 * 128)%Q with (inject_Z 128). rewrite <- Zle_Qle. lia.
Qed.

(** C7.  For every non-empty time-domain buffer whose centred and
    normalized samples lie in [-1,1], the amplitude (the square root of
    the mean of their squares) lies in [0,1]. *)
Theorem amplitude_in_unit_interval (timeDomainData : AudioAnalyzer.Uint8Array) :
  timeDomainData <> [] ->
  Forall (fun v => (-1 <= AudioAnalyzer.normalized v <= 1)%Q) timeDomainData ->
  (0 <= AudioAnalyzer.amplitude timeDomainData <= 1)%R.
Proof.
  intros Hne H.
  destruct (meanSquare_bounds timeDomainData Hne H) as [Hlo Hhi].
  apply Qle_Rle in Hlo, Hhi.
  rewrite RMicromega.Q2R_0 in Hlo. rewrite RMicromega.Q2R_1 in Hhi.
  unfold AudioAnalyzer.amplitude. split.
  - apply sqrt_pos.
  - rewrite <- sqrt_1. apply sqrt_le_1_alt. exact Hhi.
Qed.

Lemma amplitude_in_unit_interval_witness :
  [255; 0; 128; 200] <> []
  /\ Forall (fun v => (-1 <= AudioAnalyzer.normalized v <= 1)%Q)
            [255; 0; 128; 200]
  /\ (0 <= AudioAnalyzer.amplitude [255; 0; 128; 200]%Z <= 1)%R.
Proof.
  assert (Hne : [255; 0; 128; 200] <> []) by discriminate.
  assert (H : Forall (fun v => (-1 <= AudioAnalyzer.normalized v <= 1)%Q)
                     [255; 0; 128; 200]).
  { repeat constructor; discriminate. }
  split; [exact Hne|]. split; [exact H|].
  exact (amplitude_in_unit_interval [255; 0; 128; 200] Hne H).
Defined.

(** Every buffer an analyser hands out is a byte array, so the mean
    square of a non-empty one is in [0,1]. *)
Lemma meanSquare_of_bytes (timeDomainData : AudioAnalyzer.Uint8Array) :
  timeDomainData <> [] ->
  Forall AudioAnalyzer.is_uint8 timeDomainData ->
  (0 <= AudioAnalyzer.meanSquare timeDomainData <= 1)%Q.
Proof.
  intros Hne H. apply meanSquare_bounds; [assumption|].
  eapply Forall_impl; [|exact H]. apply normalized_uint8.
Qed.

(** * Theorems: mode state machine *)
Module OrbStateFacts.
Import OrbState.

Lemma Inv_init : Inv init.
Proof. constructor; simpl; [lia | contradiction | lia]. Qed.

Lemma filter_nil_iff {A} (f : A -> bool) (l : list A) :
  (forall a, In a l -> f a = false) -> filter f l = [].
Proof.
  induction l as [|a l IH]; intros H; simpl; [reflexivity|].
  rewrite (H a (or_introl eq_refl)). apply IH. intros b Hb. apply H. now right.
Qed.

Lemma clearTimeouts_spec (s : State) :
  Inv s ->
  timers (clearTimeouts s) = []
  /\ mode (clearTimeouts s) = mode s
  /\ now (clearTimeouts s) = now s
  /\ lastVoiceActivityRef (clearTimeouts s) = lastVoiceActivityRef s
  /\ nextTimerId (clearTimeouts s) = nextTimerId s.
Proof.
  intros [Hn Hids Hone]. unfold clearTimeouts.
  destruct (timeoutRef s) as [id|] eqn:Href.
  - destruct (Z.eqb_spec id 0) as [->|Hid].
    + repeat split. destruct (timers s) as [|tm l]; [reflexivity|].
      destruct (Hids tm (or_introl eq_refl)) as [Hpos Heq].
      injection Heq as Heq. lia.
    + simpl. repeat split. apply filter_nil_iff. intros tm Htm.
      destruct (Hids tm Htm) as [_ Heq].
      injection Heq as ->. now rewrite Z.eqb_refl.
  - repeat split. destruct (timers s) as [|tm l]; [reflexivity|].
    destruct (Hids tm (or_introl eq_refl)) as [_ Heq]. congruence.
Qed.

Lemma Inv_no_timers (s : State) :
  0 < nextTimerId s -> timers s = [] -> Inv s.
Proof.
  intros Hn Ht. constructor; rewrite ?Ht; simpl; [assumption| contradiction | lia].
Qed.

Lemma Inv_clearTimeouts (s : State) : Inv s -> Inv (clearTimeouts s).
Proof.
  intros H. destruct (clearTimeouts_spec s H) as (Ht & _ & _ & _ & Hn).
  apply Inv_no_timers; [rewrite Hn; apply H | exact Ht].
Qed.

Lemma Inv_setModeState (m : OrbMode) (s : State) :
  Inv s -> Inv (setModeState m s).
Proof. intros [H1 H2 H3]. constructor; assumption. Qed.

Lemma Inv_touchVoiceActivity (s : State) : Inv s -> Inv (touchVoiceActivity s).
Proof. intros [H1 H2 H3]. constructor; assumption. Qed.

(** Arming on an empty queue leaves exactly the new timer pending. *)
Lemma armTimeout_spec (delay : Z) (s : State) :
  timers s = [] ->
  timers (armTimeout delay s)
  = [{| timer_id := nextTimerId s; timer_due := now s + delay |}]
  /\ timeoutRef (armTimeout delay s) = Some (nextTimerId s)
  /\ mode (armTimeout delay s) = mode s
  /\ now (armTimeout delay s) = now s
  /\ nextTimerId (armTimeout delay s) = nextTimerId s + 1.
Proof. intros Ht. unfold armTimeout. simpl. rewrite Ht. repeat split. Qed.

Lemma Inv_armTimeout (delay : Z) (s : State) :
  0 < nextTimerId s -> timers s = [] -> Inv (armTimeout delay s).
Proof.
  intros Hn Ht. destruct (armTimeout_spec delay s Ht) as (H1 & H2 & _ & _ & H5).
  constructor.
  - lia.
  - rewrite H1, H2, H5. intros tm [<-|[]]. simpl. split; [lia|reflexivity].
  - rewrite H1. simpl. lia.
Qed.

(** Running any number of callbacks [() => setModeState('idle')]. *)
Lemma fire_fold (fired : list Timer) (s : State) :
  fold_left (fun s _ => setModeState idle s) fired s
  = match fired with [] => s | _ :: _ => setModeState idle s end.
Proof.
  revert s. induction fired as [|tm l IH]; intros s; simpl; [reflexivity|].
  rewrite IH. now destruct l.
Qed.

Lemma elapse_spec (opts : UseOrbStateOptions) (dt : N) (s : State) :
  let t := now s + Z.of_N dt in
  now (elapse dt s) = t
  /\ timers (elapse dt s) = filter (fun tm => negb (isDue t tm)) (timers s)
  /\ timeoutRef (elapse dt s) = timeoutRef s
  /\ nextTimerId (elapse dt s) = nextTimerId s
  /\ lastVoiceActivityRef (elapse dt s) = lastVoiceActivityRef s
  /\ mode (elapse dt s)
     = match filter (isDue t) (timers s) with
       | [] => mode s
       | _ :: _ => idle
       end.
Proof.
  unfold elapse, runTimers. cbn -[filter]. rewrite fire_fold.
  destruct (filter _ (timers s)); cbn -[filter]; repeat split.
Qed.

Lemma Inv_elapse (opts : UseOrbStateOptions) (dt : N) (s : State) :
  Inv s -> Inv (elapse dt s).
Proof.
  intros [H1 H2 H3].
  destruct (elapse_spec opts dt s) as (_ & Ht & Hr & Hn & _ & _).
  constructor.
  - now rewrite Hn.
  - rewrite Ht, Hr, Hn. intros tm Htm. apply filter_In in Htm. now apply H2.
  - rewrite Ht. etransitivity; [apply filter_length_le|exact H3].
Qed.

Section Preservation.
Variable opts : UseOrbStateOptions.

Lemma call_spec (op : Op) (s : State) :
  Inv s ->
  timers (call opts op s) = armedBy opts op s
  /\ mode (call opts op s) = modeAfter op
  /\ now (call opts op s) = now s
  /\ Inv (call opts op s).
Proof.
  intros HI.
  destruct (clearTimeouts_spec s HI) as (Ht & Hm & Hnow & Hl & Hn).
  pose proof (Inv_clearTimeouts s HI) as HI'.
  assert (Hpos : 0 < nextTimerId (clearTimeouts s)) by apply HI'.
  destruct op; simpl;
    unfold startListening, stopListening, startThinking, startSpeaking,
      stopSpeaking, setMode, reset;
    try (split; [|split; [|split]];
         [assumption | reflexivity | assumption
         | now apply Inv_setModeState]).
  - destruct (autoIdle opts).
    + set (s1 := touchVoiceActivity (setModeState listening (clearTimeouts s))).
      assert (Ht1 : timers s1 = []) by exact Ht.
      destruct (armTimeout_spec (listeningTimeout opts) s1 Ht1)
        as (H1 & _ & H3 & H4 & _).
      rewrite H1, H3, H4. simpl. rewrite Hn, Hnow.
      split; [|split; [|split]]; try reflexivity.
      apply Inv_armTimeout; assumption.
    + simpl. split; [|split; [|split]]; try assumption; try reflexivity.
      now apply Inv_touchVoiceActivity, Inv_setModeState.
  - set (s1 := setModeState thinking (clearTimeouts s)).
    assert (Ht1 : timers s1 = []) by exact Ht.
    rewrite Ht, Hn, Hnow. simpl.
    split; [|split; [|split]]; try reflexivity.
    apply Inv_armTimeout; assumption.
Qed.

Lemma updateVoiceActivity_true_spec (s : State) :
  Inv s ->
  timers (updateVoiceActivity opts listening true s)
  = (if autoIdle opts
     then [{| timer_id := nextTimerId s;
              timer_due := now s + listeningTimeout opts |}]
     else [])
  /\ mode (updateVoiceActivity opts listening true s) = mode s
  /\ now (updateVoiceActivity opts listening true s) = now s
  /\ Inv (updateVoiceActivity opts listening true s).
Proof.
  intros HI. unfold updateVoiceActivity. simpl.
  pose proof (Inv_touchVoiceActivity s HI) as HIt.
  destruct (clearTimeouts_spec _ HIt) as (Ht & Hm' & Hnow & _ & Hn).
  pose proof (Inv_clearTimeouts _ HIt) as HI'.
  simpl in Hm', Hnow, Hn.
  destruct (autoIdle opts).
  - destruct (armTimeout_spec (listeningTimeout opts) _ Ht)
      as (H1 & _ & H3 & H4 & _).
    rewrite H1, H3, H4, Hn, Hnow, Hm'.
    split; [|split; [|split]]; try reflexivity.
    apply Inv_armTimeout; [apply HI' | exact Ht].
  - rewrite Ht, Hm', Hnow.
    split; [|split; [|split]]; try reflexivity. exact HI'.
Qed.

(** The two guards of [updateVoiceActivity]: a callback of a render that
    was not Listening returns at once, and so does a report of no
    voice. *)
Lemma updateVoiceActivity_elsewhere (m : OrbMode) (b : bool) (s : State) :
  m <> listening -> updateVoiceActivity opts m b s = s.
Proof.
  intros Hm. unfold updateVoiceActivity.
  destruct (OrbMode_eqb_spec m listening); [contradiction|reflexivity].
Qed.

Lemma updateVoiceActivity_no_voice (m : OrbMode) (s : State) :
  updateVoiceActivity opts m false s = s.
Proof.
  unfold updateVoiceActivity.
  now destruct (negb (OrbMode_eqb m listening)).
Qed.

Lemma updateVoiceActivity_inert (m : OrbMode) (b : bool) (s : State) :
  inert (UpdateVoiceActivity m b) = true ->
  updateVoiceActivity opts m b s = s.
Proof.
  simpl. intros H. destruct b.
  - simpl in H. apply updateVoiceActivity_elsewhere.
    destruct (OrbMode_eqb_spec m listening); [discriminate|assumption].
  - apply updateVoiceActivity_no_voice.
Qed.

Lemma Inv_updateVoiceActivity (m : OrbMode) (b : bool) (s : State) :
  Inv s -> Inv (updateVoiceActivity opts m b s).
Proof.
  intros HI. destruct (OrbMode_eqb_spec m listening) as [->|Hm].
  - destruct b.
    + now apply updateVoiceActivity_true_spec.
    + now rewrite updateVoiceActivity_no_voice.
  - now rewrite (updateVoiceActivity_elsewhere m b s Hm).
Qed.

Lemma Inv_step (e : Event) (s : State) : Inv s -> Inv (step opts s e).
Proof.
  intros HI. destruct e as [op|m b|dt|]; simpl.
  - now apply call_spec.
  - now apply Inv_updateVoiceActivity.
  - now apply Inv_elapse.
  - now apply Inv_clearTimeouts.
Qed.

Lemma Inv_run (evs : list Event) (s : State) : Inv s -> Inv (run opts evs s).
Proof.
  revert s. induction evs as [|e evs IH]; intros s HI; simpl; [exact HI|].
  apply IH, Inv_step, HI.
Qed.
End Preservation.

Section Timeouts.
Variable opts : UseOrbStateOptions.

Lemma elapsed_nonneg (evs : list Event) : 0 <= elapsed evs.
Proof.
  induction evs as [|e evs IH]; simpl; [lia|]. destruct e; lia.
Qed.

(** With nothing pending, time and the voice reports that the guards
    turn away change neither the mode nor the queue. *)
Lemma quiet_when_nothing_pending (pes : list Event) (s : State) :
  forallb inert pes = true -> timers s = [] ->
  mode (run opts pes s) = mode s
  /\ timers (run opts pes s) = []
  /\ firings opts pes s = [].
Proof.
  revert s. induction pes as [|e pes IH]; intros s Hp Ht; simpl.
  - repeat split; assumption.
  - simpl in Hp. apply andb_prop in Hp as [He Hp].
    destruct e as [op|m b|dt|]; try discriminate; simpl.
    + rewrite (updateVoiceActivity_inert opts m b s He). now apply IH.
    + destruct (elapse_spec opts dt s) as (_ & Ht' & _ & _ & _ & Hm').
      rewrite Ht in Ht', Hm' |- *. simpl in Ht', Hm' |- *.
      destruct (IH (elapse dt s) Hp Ht') as (H1 & H2 & H3).
      rewrite H1, H2, H3, Hm'. repeat split.
Qed.

(** One pending timer, and only such events: the timer fires at the
    first look of the host at or after its due time, and only then. *)
Lemma pending_timer_fires_once (pes : list Event) (s : State) (tm : Timer) :
  forallb inert pes = true ->
  timers s = [tm] -> now s < timer_due tm ->
  if now s + elapsed pes <? timer_due tm
  then mode (run opts pes s) = mode s
       /\ timers (run opts pes s) = [tm]
       /\ firings opts pes s = []
  else mode (run opts pes s) = idle
       /\ timers (run opts pes s) = []
       /\ firings opts pes s = [tm].
Proof.
  revert s. induction pes as [|e pes IH]; intros s Hp Ht Hdue.
  - simpl. rewrite Z.add_0_r. destruct (Z.ltb_spec (now s) (timer_due tm)).
    + repeat split; assumption.
    + lia.
  - simpl in Hp. apply andb_prop in Hp as [He Hp].
    destruct e as [op|m b|dt|]; try discriminate.
    + simpl. rewrite (updateVoiceActivity_inert opts m b s He).
      now apply IH.
    + cbn [run fold_left step firings elapsed fold_right].
      destruct (elapse_spec opts dt s) as (Hnow & Ht' & _ & _ & _ & Hm').
      cbv zeta in Hnow, Ht', Hm'.
      rewrite Ht in Ht', Hm' |- *. cbn [filter] in Ht', Hm' |- *.
      unfold isDue in Ht', Hm' |- *.
      pose proof (elapsed_nonneg pes) as Hnn.
      change (fold_right _ 0 pes) with (elapsed pes).
      change (fold_left (step opts) pes (elapse dt s))
        with (run opts pes (elapse dt s)).
      destruct (Z.leb_spec (timer_due tm) (now s + Z.of_N dt)) as [Hd|Hd];
        cbn [negb] in Ht'.
      * destruct (quiet_when_nothing_pending pes (elapse dt s) Hp Ht')
          as (H1 & H2 & H3).
        destruct (Z.ltb_spec (now s + (Z.of_N dt + elapsed pes))
                             (timer_due tm)); [lia|].
        rewrite H1, H2, H3, Hm'. repeat split.
      * specialize (IH (elapse dt s) Hp).
        rewrite Hm', Ht', Hnow in IH.
        rewrite Z.add_assoc.
        apply IH; [reflexivity | assumption].
Qed.

(** While voice keeps being reported before the fallback timer is due,
    the timer never fires, and the state is again Listening with a
    timer armed for a full [listeningTimeout]. *)
Lemma voice_within_timeout (d : N) (s : State) :
  autoIdle opts = true ->
  listeningArmed opts s -> Z.of_N d < listeningTimeout opts ->
  mode (elapse d s) = listening
  /\ filter (isDue (now s + Z.of_N d)) (timers s) = []
  /\ listeningArmed opts (updateVoiceActivity opts listening true (elapse d s)).
Proof.
  intros Hauto (HI & Hm & id & Ht) Hd.
  destruct (elapse_spec opts d s) as (Hnow & Ht' & _ & _ & _ & Hm').
  cbv zeta in Hnow, Ht', Hm'.
  rewrite Ht in Ht', Hm' |- *. cbn [filter] in Ht', Hm' |- *.
  unfold isDue in Ht', Hm' |- *. cbn [timer_due] in Ht', Hm' |- *.
  destruct (Z.leb_spec (now s + listeningTimeout opts) (now s + Z.of_N d));
    [lia|].
  cbn [negb] in Ht'. rewrite Hm in Hm'.
  split; [exact Hm'|]. split; [reflexivity|].
  pose proof (Inv_elapse opts d s HI) as HI'.
  destruct (updateVoiceActivity_true_spec opts _ HI')
    as (H1 & H2 & H3 & H4).
  rewrite Hauto in H1.
  split; [exact H4|]. split; [now rewrite H2|].
  eexists. rewrite H1, H3. reflexivity.
Qed.

Lemma voice_sequence (gaps : list N) (s : State) :
  autoIdle opts = true ->
  listeningArmed opts s ->
  Forall (fun d => Z.of_N d < listeningTimeout opts) gaps ->
  firings opts (voiceEvery gaps) s = []
  /\ forall pre post, voiceEvery gaps = pre ++ post ->
       mode (run opts pre s) = listening.
Proof.
  intros Hauto Hs Hg. revert s Hs.
  induction Hg as [|d gaps Hd _ IH]; intros s Hs.
  - split; [reflexivity|]. intros pre post Heq.
    simpl in Heq. symmetry in Heq. apply app_eq_nil in Heq as [-> _].
    apply Hs.
  - destruct (voice_within_timeout d s Hauto Hs Hd) as (Hm1 & Hf & Hs2).
    destruct (IH _ Hs2) as [IHf IHm].
    split.
    + cbn [voiceEvery flat_map app firings step]. rewrite Hf.
      cbn [app]. exact IHf.
    + intros pre post Heq. cbn [voiceEvery flat_map app] in Heq.
      destruct pre as [|e1 pre]; [apply Hs|].
      injection Heq as <- Heq.
      destruct pre as [|e2 pre]; [exact Hm1|].
      injection Heq as <- Heq.
      cbn [run fold_left step]. apply (IHm pre post). exact Heq.
Qed.
End Timeouts.

(** C2.  In every state the hook can reach, at most one timer is pending.
    Called in such a state, each transition operation (startListening,
    stopListening, startThinking, startSpeaking, stopSpeaking, setMode,
    reset) leaves pending exactly the timer it arms itself, if it arms
    one: no timer that was pending before the call is pending after it,
    so none armed for an earlier state can fire later. *)
Theorem single_pending_timer
    (opts : UseOrbStateOptions) (evs : list Event) (op : Op) :
  let s := run opts evs init in
  let s' := call opts op s in
  (List.length (timers s) <= 1)%nat
  /\ timers s' = armedBy opts op s
  /\ (List.length (timers s') <= 1)%nat
  /\ forall tm, In tm (timers s) -> ~ In tm (timers s').
Proof.
  intros s s'.
  assert (HI : Inv s) by apply Inv_run, Inv_init.
  destruct (call_spec opts op s HI) as (Ht & _ & _ & HI').
  split; [apply HI|]. split; [exact Ht|]. split; [apply HI'|].
  intros tm Hold Hnew. fold s' in Ht. rewrite Ht in Hnew.
  destruct (inv_ids s HI tm Hold) as [[_ Hlt] _].
  unfold armedBy in Hnew.
  destruct op; try destruct (autoIdle opts); simpl in Hnew;
    try contradiction; destruct Hnew as [<-|[]]; simpl in Hlt; lia.
Qed.

(** C3.  In a reachable Listening state with autoIdle enabled, a call of
    updateVoiceActivity(true) through the callback of a Listening render
    leaves pending exactly one timer, newly armed and due a full
    listeningTimeout after the call, and none of the timers pending
    before.  If such calls then follow one another at gaps strictly
    shorter than listeningTimeout, no timer fires during the sequence and
    the mode is Listening at every point of it. *)
Theorem voice_activity_postpones_idle
    (opts : UseOrbStateOptions) (evs : list Event) (gaps : list N) :
  autoIdle opts = true ->
  mode (run opts evs init) = listening ->
  Forall (fun d => Z.of_N d < listeningTimeout opts) gaps ->
  let s := run opts evs init in
  let s0 := updateVoiceActivity opts listening true s in
  timers s0 = [{| timer_id := nextTimerId s;
                  timer_due := now s + listeningTimeout opts |}]
  /\ (forall tm, In tm (timers s) -> ~ In tm (timers s0))
  /\ firings opts (voiceEvery gaps) s0 = []
  /\ forall pre post, voiceEvery gaps = pre ++ post ->
       mode (run opts pre s0) = listening.
Proof.
  intros Hauto Hm Hg s s0.
  assert (HI : Inv s) by apply Inv_run, Inv_init.
  destruct (updateVoiceActivity_true_spec opts s HI) as (H1 & H2 & H3 & H4).
  rewrite Hauto in H1. fold s0 in H1, H2, H3, H4.
  split; [exact H1|]. split.
  - intros tm Hold Hnew. rewrite H1 in Hnew. destruct Hnew as [<-|[]].
    destruct (inv_ids s HI _ Hold) as [[_ Hlt] _]. simpl in Hlt. lia.
  - apply voice_sequence; [assumption| |assumption].
    split; [exact H4|]. split; [now rewrite H2|].
    eexists. rewrite H1, H3. reflexivity.
Qed.

Lemma voice_activity_postpones_idle_witness :
  autoIdle DEFAULT_OPTIONS = true
  /\ mode (run DEFAULT_OPTIONS [Call StartListening] init) = listening
  /\ Forall (fun d => Z.of_N d < listeningTimeout DEFAULT_OPTIONS)
            [1000; 1000; 1000; 1000; 1000]%N
  /\ firings DEFAULT_OPTIONS
       (voiceEvery [1000; 1000; 1000; 1000; 1000]%N)
       (updateVoiceActivity DEFAULT_OPTIONS listening true
          (run DEFAULT_OPTIONS [Call StartListening] init))
     = [].
Proof.
  assert (H1 : autoIdle DEFAULT_OPTIONS = true) by reflexivity.
  assert (H2 : mode (run DEFAULT_OPTIONS [Call StartListening] init)
               = listening) by reflexivity.
  assert (H3 : Forall (fun d => Z.of_N d < listeningTimeout DEFAULT_OPTIONS)
                      [1000; 1000; 1000; 1000; 1000]%N).
  { repeat constructor. }
  split; [exact H1|]. split; [exact H2|]. split; [exact H3|].
  exact (proj1 (proj2 (proj2
           (voice_activity_postpones_idle DEFAULT_OPTIONS
              [Call StartListening] [1000; 1000; 1000; 1000; 1000]%N
              H1 H2 H3)))).
Defined.

(** The scenarios of the hook's defaults: 2100 ms of silence after
    startListening() end in Idle; voice every 1000 ms keeps Listening. *)
Example listening_times_out :
  mode (run DEFAULT_OPTIONS [Call StartListening; Elapse 2100] init) = idle.
Proof. reflexivity. Qed.

Example listening_kept_alive :
  mode (run DEFAULT_OPTIONS
          (Call StartListening
             :: voiceEvery [1000; 1000; 1000; 1000; 1000]%N) init)
  = listening.
Proof. reflexivity. Qed.



Example thinking_just_before_timeout :
  mode (run DEFAULT_OPTIONS [Call StartThinking; Elapse 29999] init)
  = thinking.
Proof. reflexivity. Qed.

(** What the restriction on the voice reports keeps out: a report of
    voice through the callback of a Listening render, made after
    startThinking(), passes the guard, cancels the safety timer and arms
    the listening fallback; the mode is then Idle after listeningTimeout
    and not after thinkingTimeout. *)
Example stale_voice_report_replaces_thinking_timer :
  let s := run DEFAULT_OPTIONS
             [Call StartListening; Call StartThinking;
              UpdateVoiceActivity listening true] init in
  mode s = thinking
  /\ timers s = [{| timer_id := 3; timer_due := 2000 |}]
  /\ mode (run DEFAULT_OPTIONS [Elapse 2000] s) = idle.
Proof. repeat split. Qed.

(** C10.  updateVoiceActivity(false) changes nothing, in any state and
    whatever mode its callback closed over: not the mode, not
    [timeoutRef], not the pending timers, not even
    [lastVoiceActivityRef].  So taking the reports of no voice activity
    out of any list of events changes neither the state it ends in nor
    the timers that fire on the way. *)
Theorem updateVoiceActivity_false_is_noop
    (opts : UseOrbStateOptions) (renderedMode : OrbMode) (s : State)
    (evs : list Event) :
  updateVoiceActivity opts renderedMode false s = s
  /\ run opts (dropSilent evs) s = run opts evs s
  /\ firings opts (dropSilent evs) s = firings opts evs s.
Proof.
  assert (Hnoop : forall m s', updateVoiceActivity opts m false s' = s').
  { intros m s'. unfold updateVoiceActivity.
    now destruct (negb (OrbMode_eqb m listening)). }
  split; [apply Hnoop|].
  revert s. induction evs as [|e evs IH]; intros s; [split; reflexivity|].
  assert (Hkeep : forall e',
             dropSilent (e' :: evs) = e' :: dropSilent evs ->
             run opts (dropSilent (e' :: evs)) s = run opts (e' :: evs) s
             /\ firings opts (dropSilent (e' :: evs)) s
                = firings opts (e' :: evs) s).
  { intros e' ->. cbn [run fold_left firings].
    destruct (IH (step opts s e')) as [H1 H2].
    split; [exact H1 | now rewrite H2]. }
  destruct e as [op|m [|]|dt|]; try (apply Hkeep; reflexivity).
  change (dropSilent (UpdateVoiceActivity m false :: evs))
    with (dropSilent evs).
  cbn [run fold_left firings step app]. rewrite Hnoop. apply IH.
Qed.

End OrbStateFacts.

(** * Theorems: particle field *)
Module ParticleOrbFacts.
Import ParticleOrb.
Open Scope Q_scope.

Lemma fold_left_invariant {A B} (P : A -> Prop) (f : A -> B -> A)
    (l : list B) (a : A) :
  (forall a b, P a -> P (f a b)) -> P a -> P (fold_left f l a).
Proof.
  intros Hf. revert a. induction l as [|b l IH]; intros a Ha; simpl; auto.
Qed.

Lemma clamp_unit (v : Q) : 0 <= Math_max 0 (Math_min 1 v) <= 1.
Proof.
  unfold Math_max, Math_min.
  destruct (Qle_bool 1 v) eqn:H1.
  - change (Qle_bool 0 1) with true. cbv iota. split; discriminate.
  - destruct (Qle_bool 0 v) eqn:H0.
    + apply Qle_bool_iff in H0. split; [exact H0|].
      apply Qlt_le_weak, Qnot_le_lt. intros H.
      apply Qle_bool_iff in H. congruence.
    + split; [apply Qle_refl | discriminate].
Qed.

Section RenderFacts.
Variable Math_sin Math_cos : Q -> Q.
Variable Math_random : nat -> Q.
Variable cfg : ParticleOrbConfig.
Variable audioData : option AudioData.

Local Abbreviation drawParticle :=
  (drawParticle Math_random cfg audioData).
Local Abbreviation loopBody := (loopBody Math_random cfg audioData).
Local Abbreviation render :=
  (render Math_sin Math_cos Math_random cfg audioData).

(** Each particle gets one primary circle, with the clamped alpha, and
    at most a glow circle after it. *)
Lemma drawParticle_cmds (env : FrameEnv) (k : nat) (p : Particle) :
  exists c glow,
    snd (drawParticle env k p) = Primary c :: glow
    /\ 0 <= c_alpha c <= 1
    /\ Forall primaryAlphaInUnit glow
    /\ filter isPrimary glow = [].
Proof.
  unfold ParticleOrb.drawParticle. cbv zeta. cbn [snd].
  eexists. eexists. split; [reflexivity|]. cbn [c_alpha].
  split; [apply clamp_unit|].
  match goal with |- context [if ?b then _ else _] => destruct b end.
  - split; [repeat constructor | reflexivity].
  - split; [constructor | reflexivity].
Qed.

Lemma loopBody_alpha (env : FrameEnv) (st : LoopState)
    (ip : nat * Particle) :
  Forall primaryAlphaInUnit (snd st) ->
  Forall primaryAlphaInUnit (snd (loopBody env st ip)).
Proof.
  destruct st as [[particles k] cmds]. cbn [snd]. intros H.
  unfold ParticleOrb.loopBody.
  destruct (drawParticle_cmds env k (snd ip)) as (c & glow & Hd & Hc & Hg & _).
  destruct (drawParticle env k (snd ip)) as [p' drawn]. cbn [snd] in *.
  subst drawn. apply Forall_app. split; [exact H|].
  constructor; assumption.
Qed.

Lemma loopBody_count (env : FrameEnv) (st : LoopState)
    (ip : nat * Particle) :
  List.length (filter isPrimary (snd (loopBody env st ip)))
  = S (List.length (filter isPrimary (snd st))).
Proof.
  destruct st as [[particles k] cmds]. cbn [snd].
  unfold ParticleOrb.loopBody.
  destruct (drawParticle_cmds env k (snd ip)) as (c & glow & Hd & _ & _ & Hg).
  destruct (drawParticle env k (snd ip)) as [p' drawn]. cbn [snd] in *.
  subst drawn. rewrite filter_app, length_app. cbn [filter isPrimary].
  rewrite Hg. simpl. lia.
Qed.

Lemma loop_count (env : FrameEnv) (l : list (nat * Particle))
    (st : LoopState) :
  List.length (filter isPrimary (snd (fold_left (loopBody env) l st)))
  = (List.length (filter isPrimary (snd st)) + List.length l)%nat.
Proof.
  revert st. induction l as [|ip l IH]; intros st; simpl; [lia|].
  rewrite IH, loopBody_count. lia.
Qed.

Lemma store_length (i : nat) (p : Particle) (particles : list Particle) :
  List.length (store i p particles) = List.length particles.
Proof.
  revert i. induction particles as [|q rest IH]; intros [|i]; simpl;
    try reflexivity. now rewrite IH.
Qed.

(** The loop writes through the particle objects; the array keeps its
    length. *)
Lemma loop_particles_length (env : FrameEnv) (l : list (nat * Particle))
    (st : LoopState) :
  List.length (fst (fst (fold_left (loopBody env) l st)))
  = List.length (fst (fst st)).
Proof.
  apply (fold_left_invariant
           (fun st' => List.length (fst (fst st'))
                       = List.length (fst (fst st)))); [|reflexivity].
  intros [[particles k] cmds] ip H. unfold ParticleOrb.loopBody.
  destruct (drawParticle env k (snd ip)) as [p' drawn]. cbn [fst] in *.
  now rewrite store_length.
Qed.

(** [render] with a canvas, its particle loop named. *)
Lemma render_with_canvas (canvas : Canvas) (k : nat) (r : Refs) :
  let env :=
    frameEnv Math_sin Math_cos cfg audioData canvas r in
  let loop :=
    fold_left (loopBody env) (sortedParticles (particlesRef r))
      (particlesRef r, k, [Trail (width canvas) (height canvas)]) in
  render (Some canvas) k r
  = ({| particlesRef := fst (fst loop);
        timeRef := timeRef r + 16;
        modeTransitionRef := advanceProgress (modeTransitionRef r);
        prevModeRef := prevModeRef r |},
     snd (fst loop),
     snd loop
       ++ [CentralGlow (centerX env) (centerY env)
             (effectiveRadius env * 0.8 * (1 + amplitudeOf audioData * 0.5))
             (color env)
             (0.15 + amplitudeOf audioData * 0.1)
             (0.05 + amplitudeOf audioData * 0.05)]).
Proof.
  intros env loop. unfold ParticleOrb.render. fold env. fold loop.
  now destruct loop as [[particles k'] cmds].
Qed.
End RenderFacts.

Lemma insertByZ_length (a : nat * Particle) (l : list (nat * Particle)) :
  List.length (insertByZ a l) = S (List.length l).
Proof.
  induction l as [|b l IH]; simpl; [reflexivity|].
  destruct (Qle_bool _ _); simpl; [reflexivity | now rewrite IH].
Qed.

Lemma sortedParticles_length (particles : list Particle) :
  List.length (sortedParticles particles) = List.length particles.
Proof.
  unfold sortedParticles, sortByZ, indexed.
  assert (H : forall l : list (nat * Particle),
             List.length (fold_right insertByZ [] l) = List.length l).
  { induction l as [|a l IH]; simpl; [reflexivity|].
    now rewrite insertByZ_length, IH. }
  rewrite H, length_combine, length_seq. apply Nat.min_id.
Qed.

(** ** Mode transitions *)

Lemma render_transition (Math_sin Math_cos : Q -> Q) (Math_random : nat -> Q)
    (cfg : ParticleOrbConfig) (audioData : option AudioData)
    (canvas : option Canvas) (k : nat) (r : Refs) :
  let r' := fst (fst (render Math_sin Math_cos Math_random cfg audioData
                             canvas k r)) in
  prevModeRef r' = prevModeRef r
  /\ modeTransitionRef r'
     = match canvas with
       | Some _ => advanceProgress (modeTransitionRef r)
       | None => modeTransitionRef r
       end.
Proof.
  destruct canvas as [canvas|]; [|split; reflexivity].
  cbv zeta. rewrite render_with_canvas. split; reflexivity.
Qed.

Lemma Math_min_spec (a b : Q) :
  (a <= b /\ Math_min a b = a) \/ (b < a /\ Math_min a b = b).
Proof.
  unfold Math_min. destruct (Qle_bool a b) eqn:H.
  - left. split; [now apply Qle_bool_iff | reflexivity].
  - right. split; [|reflexivity]. apply Qnot_le_lt. intros Hle.
    apply Qle_bool_iff in Hle. congruence.
Qed.

Lemma advanceProgress_spec (tr : ModeTransition) :
  from (advanceProgress tr) = from tr
  /\ to (advanceProgress tr) = to tr
  /\ (progress tr < 1 ->
      progress (advanceProgress tr) = Math_min (progress tr + 0.02) 1)
  /\ (1 <= progress tr -> advanceProgress tr = tr).
Proof.
  unfold advanceProgress. destruct (Qle_bool 1 (progress tr)) eqn:H; simpl.
  - apply Qle_bool_iff in H. repeat split; try reflexivity.
    intros Hlt. exfalso. Lqa.lra.
  - repeat split; try reflexivity. intros Hle.
    apply Qle_bool_iff in Hle. congruence.
Qed.

Lemma advanceProgress_bounds (tr : ModeTransition) :
  0 <= progress tr <= 1 ->
  progress tr <= progress (advanceProgress tr) <= 1.
Proof.
  intros Hb. destruct (advanceProgress_spec tr) as (_ & _ & Hlt & Hge).
  destruct (Qlt_le_dec (progress tr) 1) as [H|H].
  - rewrite (Hlt H).
    destruct (Math_min_spec (progress tr + 0.02) 1) as [[H1 ->]|[H1 ->]];
      Lqa.lra.
  - rewrite (Hge H). Lqa.lra.
Qed.

(** The previous-mode ref always names the target of the transition
    ref, and progress stays in [0,1]. *)
Lemma reachable_invariant (r : Refs) :
  reachable r ->
  prevModeRef r = to (modeTransitionRef r)
  /\ 0 <= progress (modeTransitionRef r) <= 1.
Proof.
  induction 1 as [mode ps | mode r _ [IH1 IH2]
                 | msin mcos mrand cfg audio canvas k r _ [IH1 IH2]].
  - simpl. split; [reflexivity | split; discriminate].
  - unfold modeEffect. destruct (negb (OrbMode_eqb mode (prevModeRef r))).
    + simpl. split; [reflexivity | split; discriminate].
    + split; assumption.
  - destruct (render_transition msin mcos mrand cfg audio canvas k r)
      as [Hp Ht].
    cbv zeta in Hp, Ht. rewrite Hp, Ht. destruct canvas as [canvas|].
    + destruct (advanceProgress_spec (modeTransitionRef r)) as (_ & Hto & _).
      rewrite Hto. split; [exact IH1|].
      pose proof (advanceProgress_bounds _ IH2). Lqa.lra.
    + split; assumption.
Qed.

(** C5.  The component holds a single transition.  In every state it can
    reach, progress lies in [0,1]; a change of the mode prop to a mode
    other than the transition's [to] replaces the transition by one that
    starts from the previous [to], ends at the new mode and has progress
    0, whatever the progress was; a rendered frame leaves [from] and
    [to] alone and moves progress from p < 1 to min(p + 0.02, 1), never
    down and never past 1; and once progress is at least 1 the style
    lookups are exactly the static profiles of [to]. *)
Theorem single_transition_progress
    (Math_sin Math_cos : Q -> Q) (Math_random : nat -> Q)
    (cfg : ParticleOrbConfig) (audioData : option AudioData)
    (canvas : Canvas) (k : nat) (mode : OrbMode) (r : Refs) :
  reachable r ->
  let tr := modeTransitionRef r in
  let tr' := modeTransitionRef
               (fst (fst (render Math_sin Math_cos Math_random cfg audioData
                                 (Some canvas) k r))) in
  0 <= progress tr <= 1
  /\ (mode <> to tr ->
      modeTransitionRef (modeEffect mode r)
      = {| from := to tr; to := mode; progress := 0 |})
  /\ (mode = to tr -> modeEffect mode r = r)
  /\ from tr' = from tr /\ to tr' = to tr
  /\ progress tr <= progress tr' <= 1
  /\ (progress tr < 1 -> progress tr' = Math_min (progress tr + 0.02) 1)
  /\ (1 <= progress tr ->
      getModeParams tr = MODE_PARAMS (to tr)
      /\ getModeColor tr = MODE_COLORS (to tr)).
Proof.
  intros Hr tr tr'.
  destruct (reachable_invariant r Hr) as [Hprev Hb]. fold tr in Hprev, Hb.
  assert (Htr' : tr' = advanceProgress tr).
  { unfold tr'. now rewrite render_with_canvas. }
  destruct (advanceProgress_spec tr) as (Hf & Ht & Hlt & _).
  split; [exact Hb|]. split; [|split].
  - intros Hne. unfold modeEffect. rewrite Hprev.
    destruct (OrbMode_eqb_spec mode (to tr)); [contradiction|reflexivity].
  - intros ->. unfold modeEffect. rewrite Hprev.
    now rewrite OrbMode_eqb_refl.
  - rewrite Htr'. split; [exact Hf|]. split; [exact Ht|].
    split; [apply advanceProgress_bounds, Hb|]. split; [exact Hlt|].
    intros Hge. apply Qle_bool_iff in Hge.
    unfold getModeParams, getModeColor. rewrite Hge. split; reflexivity.
Qed.

Lemma single_transition_progress_witness :
  reachable (modeEffect thinking (mount idle [farParticle; nearParticle]))
  /\ modeTransitionRef
       (modeEffect speaking
          (modeEffect thinking (mount idle [farParticle; nearParticle])))
     = {| from := thinking; to := speaking; progress := 0 |}.
Proof.
  assert (Hr : reachable (modeEffect thinking
                            (mount idle [farParticle; nearParticle]))).
  { apply reach_modeEffect, reach_mount. }
  split; [exact Hr|].
  refine (proj1 (proj2
            (single_transition_progress sinAround0 cosAround0 randomCycle
               DEFAULT_CONFIG None {| width := 400; height := 400 |} 0
               speaking _ Hr)) _).
  discriminate.
Defined.

(** Fifty frames complete a transition. *)
Example fifty_frames_complete :
  progress (Nat.iter 50 advanceProgress
              {| from := idle; to := listening; progress := 0 |}) == 1
  /\ progress (Nat.iter 49 advanceProgress
                 {| from := idle; to := listening; progress := 0 |}) < 1.
Proof. split; vm_compute; reflexivity. Qed.

(** ** Absent audio *)

(** A frame keeps the particle set and draws each particle once. *)
Lemma frame_complete
    (Math_sin Math_cos : Q -> Q) (Math_random : nat -> Q)
    (cfg : ParticleOrbConfig) (audioData : option AudioData)
    (canvas : option Canvas) (k : nat) (r : Refs) :
  let out := render Math_sin Math_cos Math_random cfg audioData canvas k r in
  List.length (particlesRef (fst (fst out))) = List.length (particlesRef r)
  /\ List.length (filter isPrimary (snd out))
     = match canvas with
       | Some _ => List.length (particlesRef r)
       | None => 0%nat
       end.
Proof.
  destruct canvas as [canvas|]; [|split; reflexivity].
  cbv zeta. rewrite render_with_canvas. cbn [fst snd particlesRef]. split.
  - apply loop_particles_length.
  - rewrite filter_app, length_app, loop_count, sortedParticles_length.
    simpl. lia.
Qed.

(** C8.  With no feature snapshot the renderer reads amplitude, bass,
    mid and treble as 0 and voice activity as false; a call of [render]
    then returns the very refs, random draws and draw commands it returns
    for a snapshot of silence; and the frame is a whole one: the particle
    set keeps its size and, when there is a canvas, every particle is
    drawn. *)
Theorem absent_audio_renders_as_silence
    (Math_sin Math_cos : Q -> Q) (Math_random : nat -> Q)
    (cfg : ParticleOrbConfig) (canvas : option Canvas) (k : nat) (r : Refs) :
  let out := render Math_sin Math_cos Math_random cfg None canvas k r in
  amplitudeOf None = 0
  /\ bassOf None = 0 /\ midOf None = 0 /\ trebleOf None = 0
  /\ isVoiceActiveOf None = false
  /\ out = render Math_sin Math_cos Math_random cfg (Some silence) canvas k r
  /\ List.length (particlesRef (fst (fst out))) = List.length (particlesRef r)
  /\ List.length (filter isPrimary (snd out))
     = match canvas with
       | Some _ => List.length (particlesRef r)
       | None => 0%nat
       end.
Proof.
  intros out. do 5 (split; [reflexivity|]). split.
  - unfold out, render, frameEnv, loopBody, drawParticle, finalAlphaOf.
    reflexivity.
  - apply frame_complete.
Qed.

(** ** Alpha *)

(** C9.  Whatever the host functions, the configuration, the audio
    snapshot, the refs and the canvas, every primary circle a call of
    [render] emits has its alpha in [0,1]; and with a canvas there is one
    primary circle for each particle. *)
Theorem primary_alpha_clamped
    (Math_sin Math_cos : Q -> Q) (Math_random : nat -> Q)
    (cfg : ParticleOrbConfig) (audioData : option AudioData)
    (canvas : option Canvas) (k : nat) (r : Refs) :
  let cmds := snd (render Math_sin Math_cos Math_random cfg audioData
                          canvas k r) in
  Forall primaryAlphaInUnit cmds
  /\ List.length (filter isPrimary cmds)
     = match canvas with
       | Some _ => List.length (particlesRef r)
       | None => 0%nat
       end.
Proof.
  destruct canvas as [canvas|]; [|split; [constructor | reflexivity]].
  cbv zeta. rewrite render_with_canvas. cbn [snd]. split.
  - apply Forall_app. split; [|repeat constructor].
    apply fold_left_invariant.
    + intros st ip. apply loopBody_alpha.
    + repeat constructor.
  - pose proof (frame_complete Math_sin Math_cos Math_random cfg audioData
                  (Some canvas) k r) as [_ H].
    cbv zeta in H. rewrite render_with_canvas in H. exact H.
Qed.

(** The depth term itself does go negative, for a particle far enough
    behind the centre. *)
Example depth_alpha_can_be_negative :
  depthAlphaOf (perspectiveOf 500 1) < 0
  /\ finalAlphaOf None (MODE_PARAMS idle)
       (depthAlphaOf (perspectiveOf 500 1)) 1 == 0.
Proof. split; reflexivity. Qed.

(** ** Draw order *)

(** What the sort does establish: the loop visits the particles in
    ascending order of the [z] they had when the frame began. *)
Lemma insertByZ_In (a x : nat * Particle) (l : list (nat * Particle)) :
  In x (insertByZ a l) -> x = a \/ In x l.
Proof.
  induction l as [|b l IH]; simpl.
  - intros [<-|[]]. now left.
  - destruct (Qle_bool _ _).
    + intros [<-|H]; [now left | now right].
    + intros [<-|H]; [right; now left|].
      destruct (IH H) as [->|H']; [now left | right; now right].
Qed.

Lemma insertByZ_sorted (a : nat * Particle) (l : list (nat * Particle)) :
  StronglySorted zLe l -> StronglySorted zLe (insertByZ a l).
Proof.
  induction 1 as [|b l Hs IH Hb]; simpl.
  - repeat constructor.
  - destruct (Qle_bool (p_z (snd a)) (p_z (snd b))) eqn:Hab.
    + apply Qle_bool_iff in Hab. constructor.
      * now constructor.
      * constructor; [exact Hab|].
        eapply Forall_impl; [|exact Hb]. intros c Hc.
        unfold zLe in *. Lqa.lra.
    + assert (Hba : zLe b a).
      { unfold zLe. apply Qlt_le_weak, Qnot_le_lt. intros H.
        apply Qle_bool_iff in H. congruence. }
      constructor; [exact IH|].
      apply Forall_forall. intros x Hx.
      destruct (insertByZ_In a x l Hx) as [->|Hin]; [exact Hba|].
      rewrite Forall_forall in Hb. now apply Hb.
Qed.

Lemma sortedParticles_ascending (particles : list Particle) :
  StronglySorted zLe (sortedParticles particles).
Proof.
  unfold sortedParticles, sortByZ.
  induction (indexed particles) as [|a l IH]; simpl.
  - constructor.
  - now apply insertByZ_sorted.
Qed.

(** C6, at the first frame of [farParticle] and [nearParticle].  The
    sorted copy lists the near particle (index 1) before the far one
    (index 0), and the frame's primary circles come in that order: first
    the near particle's (hue 230, perspective 200/173, the larger
    radius), then the far particle's (hue 210, perspective 200/227, the
    smaller radius).  The nearer particle is drawn first and the farther
    one after it. *)
Theorem nearer_particle_drawn_first :
  map fst (sortedParticles [farParticle; nearParticle]) = [1; 0]%nat
  /\ perspectiveOf (p_z farParticle) 0.9
     < perspectiveOf (p_z nearParticle) 0.9
  /\ primaryCircles firstFrame
     = [ {| c_x := 207931 # 1730; c_y := 549442 # 4325;
            c_radius := 8757 # 1730;
            c_hue := 230; c_saturation := 60; c_lightness := 50;
            c_alpha := 4767 # 17300 |};
         {| c_x := 51268712 # 181627; c_y := 36314600 # 181627;
            c_radius := 7394643 # 1816270;
            c_hue := 210; c_saturation := 60; c_lightness := 50;
            c_alpha := 2905833 # 18162700 |} ].
Proof. repeat split; vm_compute; reflexivity. Qed.

End ParticleOrbFacts.

(** * More on the feature extractor *)
Module AudioAnalyzerMore.
Import AudioAnalyzer.

Lemma get_uint8 (data : Uint8Array) (i : Z) :
  Forall is_uint8 data -> is_uint8 (get data i).
Proof.
  intros H. unfold get.
  destruct (nth_in_or_default (Z.to_nat i) data 0) as [Hin | ->].
  - rewrite Forall_forall in H. now apply H.
  - unfold is_uint8. lia.
Qed.

Lemma sumBins_acc (data : Uint8Array) (bins : list Z) (acc : Z) :
  fold_left (fun sum i => sum + get data i) bins acc
  = acc + sumBins data bins.
Proof.
  unfold sumBins. revert acc.
  induction bins as [|i bins IH]; intros acc; simpl; [lia|].
  rewrite (IH (acc + get data i)), (IH (get data i)). lia.
Qed.

Lemma sumBins_cons (data : Uint8Array) (i : Z) (bins : list Z) :
  sumBins data (i :: bins) = get data i + sumBins data bins.
Proof. unfold sumBins at 1. simpl. apply sumBins_acc. Qed.

(** A sum of byte magnitudes over [n] bins is between 0 and [255 n]. *)
Lemma sumBins_bounds (data : Uint8Array) (bins : list Z) :
  Forall is_uint8 data ->
  0 <= sumBins data bins <= 255 * Z.of_nat (List.length bins).
Proof.
  intros H. induction bins as [|i bins IH].
  - unfold sumBins. simpl. lia.
  - rewrite sumBins_cons. pose proof (get_uint8 data i H) as Hi.
    unfold is_uint8 in Hi. simpl List.length. lia.
Qed.

Lemma bandMean_unit (data : Uint8Array) (lo hi : Z) :
  Forall is_uint8 data ->
  (0 <= bandMean (sumBins data (range lo hi)) lo hi <= 1)%Q.
Proof.
  intros H. unfold bandMean. destruct (Z.ltb_spec lo hi) as [Hlt|Hge].
  - pose proof (sumBins_bounds data (range lo hi) H) as Hb.
    rewrite range_length in Hb.
    assert (Hpos : (0 < inject_Z ((hi - lo) * 255))%Q).
    { change 0%Q with (inject_Z 0). rewrite <- Zlt_Qlt. lia. }
    split.
    + apply Qle_shift_div_l; [exact Hpos|]. rewrite Qmult_0_l.
      change 0%Q with (inject_Z 0). rewrite <- Zle_Qle. lia.
    + apply Qle_shift_div_r; [exact Hpos|]. rewrite Qmult_1_l.
      rewrite <- Zle_Qle. lia.
  - split; discriminate.
Qed.

(** X1.  For a non-empty spectrum of bytes and a positive Nyquist
    frequency, the bass, mid and treble energies that [analyze] reports
    all lie in [0,1]. *)
Theorem band_energies_in_unit_interval
    (vadThreshold : Q) (sampleRate : option Q)
    (frequencyData timeDomainData : Uint8Array) :
  frequencyData <> [] -> (0 < nyquist sampleRate)%Q ->
  Forall is_uint8 frequencyData ->
  let bands := an_frequencyBands
                 (analyze vadThreshold sampleRate frequencyData
                          timeDomainData) in
  (0 <= bass bands <= 1)%Q
  /\ (0 <= mid bands <= 1)%Q
  /\ (0 <= treble bands <= 1)%Q.
Proof.
  intros _ _ H. cbn. unfold bassBins, midBins, trebleBins.
  repeat split; apply bandMean_unit; assumption.
Qed.

Lemma band_energies_in_unit_interval_witness :
  [0; 255; 17; 200] <> []
  /\ (0 < nyquist None)%Q
  /\ Forall is_uint8 [0; 255; 17; 200]
  /\ (0 <= mid (an_frequencyBands
                  (analyze 0.02 None [0; 255; 17; 200]%Z
                           [128; 128; 128; 128]%Z))
       <= 1)%Q.
Proof.
  assert (Hne : [0; 255; 17; 200] <> []) by discriminate.
  assert (Hq : (0 < nyquist None)%Q) by reflexivity.
  assert (H : Forall is_uint8 [0; 255; 17; 200]).
  { repeat constructor; unfold is_uint8; lia. }
  split; [exact Hne|]. split; [exact Hq|]. split; [exact H|].
  exact (proj1 (proj2 (band_energies_in_unit_interval
                         0.02 None [0; 255; 17; 200] [128; 128; 128; 128]
                         Hne Hq H))).
Defined.

Lemma vadStart_bounds (nyq : Q) (binCount : Z) :
  0 < binCount -> (0 < nyq)%Q ->
  bassEnd nyq binCount <= vadStart nyq binCount
  /\ 0 <= vadStart nyq binCount
  /\ vadEnd nyq binCount <= binCount.
Proof.
  intros Hn Hq.
  pose proof (binWidth_pos nyq binCount Hn Hq) as Hw.
  pose proof (edge_nonneg _ 250 Hw ltac:(discriminate)) as H0.
  pose proof (edge_mono _ 250 300 Hw ltac:(discriminate)) as H1.
  unfold bassEnd, vadStart, vadEnd. lia.
Qed.

(** X2.  For a positive bin count and Nyquist frequency, every index the
    four loops of [analyze] read is inside the buffer, and the
    voice-activity loop reads no bin of the bass band. *)
Theorem analyze_reads_in_bounds (nyq : Q) (binCount : Z) :
  0 < binCount -> (0 < nyq)%Q ->
  Forall (fun i => 0 <= i < binCount)
         (bassBins nyq binCount ++ midBins nyq binCount
          ++ trebleBins nyq binCount ++ vadBins nyq binCount)
  /\ forall i, In i (vadBins nyq binCount) ->
       ~ In i (bassBins nyq binCount).
Proof.
  intros Hn Hq.
  destruct (band_edges_ordered nyq binCount Hn Hq) as (H0 & H1 & H2).
  destruct (vadStart_bounds nyq binCount Hn Hq) as (H3 & H4 & H5).
  unfold bassBins, midBins, trebleBins, vadBins, midStart, trebleStart.
  split.
  - rewrite !Forall_app. repeat split; apply Forall_forall; intros i Hi;
      apply range_In in Hi; lia.
  - intros i Hi Hb. apply range_In in Hi, Hb. lia.
Qed.

Lemma analyze_reads_in_bounds_witness :
  0 < 128 /\ (0 < nyquist (Some 48000%Q))%Q
  /\ Forall (fun i => 0 <= i < 128)
        (bassBins (nyquist (Some 48000%Q)) 128
         ++ midBins (nyquist (Some 48000%Q)) 128
         ++ trebleBins (nyquist (Some 48000%Q)) 128
         ++ vadBins (nyquist (Some 48000%Q)) 128).
Proof.
  assert (Hn : 0 < 128) by lia.
  assert (Hq : (0 < nyquist (Some 48000%Q))%Q) by reflexivity.
  split; [exact Hn|]. split; [exact Hq|].
  exact (proj1 (analyze_reads_in_bounds (nyquist (Some 48000%Q)) 128 Hn Hq)).
Defined.

(** ** Silence and full scale *)

Lemma sumBins_const (data : Uint8Array) (bins : list Z) (c : Z) :
  (forall i, In i bins -> get data i = c) ->
  sumBins data bins = c * Z.of_nat (List.length bins).
Proof.
  induction bins as [|i bins IH]; intros H.
  - unfold sumBins. simpl. lia.
  - rewrite sumBins_cons, IH, (H i (or_introl eq_refl)).
    + simpl List.length. lia.
    + intros j Hj. apply H. now right.
Qed.

Lemma get_const (data : Uint8Array) (c i : Z) :
  Forall (eq c) data -> 0 <= i < length data -> get data i = c.
Proof.
  intros H Hi. unfold get, length in *. rewrite Forall_forall in H.
  symmetry. apply H, nth_In. lia.
Qed.

Lemma bandMean_const (data : Uint8Array) (c lo hi : Z) :
  Forall (eq c) data -> 0 <= lo -> hi <= length data -> lo < hi ->
  (bandMean (sumBins data (range lo hi)) lo hi == inject_Z c / 255)%Q.
Proof.
  intros H Hlo Hhi Hlt. unfold bandMean.
  destruct (Z.ltb_spec lo hi); [|lia].
  rewrite (sumBins_const data (range lo hi) c).
  - rewrite range_length. rewrite Z2Nat.id by lia.
    rewrite !inject_Z_mult. field.
    intros Heq. unfold Qeq in Heq. simpl in Heq. lia.
  - intros i Hin. apply range_In in Hin. apply get_const; [assumption|lia].
Qed.

Lemma bandMean_zero_sum (lo hi : Z) : (bandMean 0 lo hi == 0)%Q.
Proof.
  unfold bandMean. destruct (lo <? hi); [|reflexivity].
  unfold Qdiv. now rewrite Qmult_0_l.
Qed.

Section FlatBuffer.
Open Scope Q_scope.

Lemma normalized_zero_iff (v : Z) : normalized v == 0 <-> v = 128%Z.
Proof.
  unfold normalized, Qdiv, Qeq, Qmult, Qinv. simpl. lia.
Qed.

Lemma squares_acc_le (data : Uint8Array) (acc : Q) :
  acc <= fold_left (fun sum v => sum + normalized v * normalized v) data acc.
Proof.
  revert acc. induction data as [|v data IH]; intros acc; simpl.
  - apply Qle_refl.
  - eapply Qle_trans; [|apply IH].
    assert (0 <= normalized v * normalized v) by Lqa.nra. Lqa.lra.
Qed.

Lemma squares_acc_flat (data : Uint8Array) (acc : Q) :
  fold_left (fun sum v => sum + normalized v * normalized v) data acc == acc
  <-> Forall (eq 128%Z) data.
Proof.
  revert acc. induction data as [|v data IH]; intros acc; simpl.
  - split; [constructor | reflexivity].
  - pose proof (squares_acc_le data (acc + normalized v * normalized v)) as Hle.
    assert (Hsq : 0 <= normalized v * normalized v) by Lqa.nra.
    split.
    + intros Heq.
      assert (Hz : normalized v * normalized v == 0) by Lqa.lra.
      constructor.
      * symmetry. apply normalized_zero_iff.
        destruct (Qeq_dec (normalized v) 0) as [H0|H0]; [exact H0|].
        exfalso. assert (0 < normalized v * normalized v) by Lqa.nra.
        Lqa.lra.
      * apply (IH (acc + normalized v * normalized v)). Lqa.lra.
    + intros H. inversion H as [|v' d' Hv Hd]; subst.
      apply (IH (acc + normalized 128 * normalized 128)) in Hd.
      rewrite Hd. change (normalized 128) with (0 # 128). Lqa.lra.
Qed.

Lemma meanSquare_zero_iff (data : Uint8Array) :
  data <> [] -> (meanSquare data == 0 <-> Forall (eq 128%Z) data).
Proof.
  intros Hne. rewrite <- (squares_acc_flat data 0).
  fold (sumSquares data). unfold meanSquare.
  assert (Hn : 0 < inject_Z (length data)).
  { change 0 with (inject_Z 0). rewrite <- Zlt_Qlt.
    unfold length. destruct data; [congruence|simpl; lia]. }
  split; intros H.
  - assert (Hm : sumSquares data
                 == sumSquares data / inject_Z (length data)
                    * inject_Z (length data)).
    { field. intros H0. rewrite H0 in Hn. discriminate. }
    rewrite Hm, H. Lqa.lra.
  - rewrite H. unfold Qdiv. now rewrite Qmult_0_l.
Qed.

Lemma meanSquare_nonneg (data : Uint8Array) : 0 <= meanSquare data.
Proof.
  unfold meanSquare, sumSquares, Qdiv.
  apply Qmult_le_0_compat; [apply squares_acc_le|].
  apply Qinv_le_0_compat. change 0 with (inject_Z 0).
  rewrite <- Zle_Qle. unfold length. lia.
Qed.
End FlatBuffer.

(** X3.  The amplitude of a non-empty buffer is 0 exactly when every
    sample is the mid-level byte 128; in particular a buffer of zero
    bytes is not silent. *)
Theorem amplitude_zero_iff_flat (timeDomainData : Uint8Array) :
  timeDomainData <> [] ->
  (amplitude timeDomainData = 0%R <-> Forall (eq 128) timeDomainData).
Proof.
  intros Hne. rewrite <- (meanSquare_zero_iff timeDomainData Hne).
  unfold amplitude.
  pose proof (meanSquare_nonneg timeDomainData) as Hnn.
  apply Qle_Rle in Hnn. rewrite RMicromega.Q2R_0 in Hnn.
  split; intros H.
  - apply sqrt_eq_0 in H; [|exact Hnn].
    apply eqR_Qeq. now rewrite RMicromega.Q2R_0.
  - apply Qeq_eqR in H. rewrite H, RMicromega.Q2R_0. apply sqrt_0.
Qed.

Lemma amplitude_zero_iff_flat_witness :
  [128; 128; 128] <> []
  /\ (amplitude [128; 128; 128]%Z = 0%R
      <-> Forall (eq 128) [128; 128; 128]).
Proof.
  assert (Hne : [128; 128; 128] <> []) by discriminate.
  split; [exact Hne|].
  exact (amplitude_zero_iff_flat [128; 128; 128] Hne).
Defined.

(** X4.  Silence in, silence out: for non-empty buffers and a positive
    Nyquist frequency, an all-zero spectrum, a flat waveform (every
    sample 128) and a threshold that is not negative, [analyze] reports
    amplitude 0, all three band energies 0 and no voice activity. *)
Theorem analyze_silence
    (vadThreshold : Q) (sampleRate : option Q)
    (frequencyData timeDomainData : Uint8Array) :
  frequencyData <> [] -> timeDomainData <> [] ->
  (0 < nyquist sampleRate)%Q ->
  Forall (eq 0) frequencyData ->
  Forall (eq 128) timeDomainData ->
  (0 <= vadThreshold)%Q ->
  let a := analyze vadThreshold sampleRate frequencyData timeDomainData in
  an_amplitude a = 0%R
  /\ (bass (an_frequencyBands a) == 0)%Q
  /\ (mid (an_frequencyBands a) == 0)%Q
  /\ (treble (an_frequencyBands a) == 0)%Q
  /\ an_isVoiceActive a = false.
Proof.
  intros _ Hne _ Hf Ht Hthr.
  assert (Hsum : forall bins, sumBins frequencyData bins = 0).
  { intros bins. rewrite (sumBins_const frequencyData bins 0); [lia|].
    intros i _. unfold get.
    destruct (nth_in_or_default (Z.to_nat i) frequencyData 0) as [Hin | ->];
      [|reflexivity].
    rewrite Forall_forall in Hf. symmetry. now apply Hf. }
  cbn. rewrite !Hsum.
  split.
  { unfold amplitude.
    replace (Q2R (meanSquare timeDomainData)) with 0%R; [apply sqrt_0|].
    rewrite <- RMicromega.Q2R_0. symmetry. apply Qeq_eqR.
    now apply meanSquare_zero_iff. }
  repeat split; try apply bandMean_zero_sum.
  apply negb_false_iff, Qle_bool_iff.
  now rewrite bandMean_zero_sum.
Qed.

Lemma analyze_silence_witness :
  repeat 0 16 <> [] /\ repeat 128 16 <> []
  /\ (0 < nyquist None)%Q
  /\ Forall (eq 0) (repeat 0 16)
  /\ Forall (eq 128) (repeat 128 16)
  /\ (0 <= 0.02)%Q
  /\ an_isVoiceActive (analyze 0.02 None (repeat 0 16) (repeat 128 16))
     = false.
Proof.
  assert (H1 : repeat 0 16 <> []) by discriminate.
  assert (H2 : repeat 128 16 <> []) by discriminate.
  assert (H3 : (0 < nyquist None)%Q) by reflexivity.
  assert (H4 : Forall (eq 0) (repeat 0 16)) by (repeat constructor).
  assert (H5 : Forall (eq 128) (repeat 128 16)) by (repeat constructor).
  assert (H6 : (0 <= 0.02)%Q) by discriminate.
  do 6 (split; [assumption|]).
  exact (proj2 (proj2 (proj2 (proj2
           (analyze_silence 0.02 None (repeat 0 16) (repeat 128 16)
              H1 H2 H3 H4 H5 H6))))).
Defined.

(** X5.  Full scale in the speech band is heard: for a spectrum whose
    every bin is 255, a positive bin count and Nyquist frequency, a
    non-empty voice range and a threshold below 1, [analyze] reports
    voice activity. *)
Theorem analyze_full_scale_voice
    (vadThreshold : Q) (sampleRate : option Q)
    (frequencyData timeDomainData : Uint8Array) :
  frequencyData <> [] -> (0 < nyquist sampleRate)%Q ->
  Forall (eq 255) frequencyData ->
  vadStart (nyquist sampleRate) (length frequencyData)
  < vadEnd (nyquist sampleRate) (length frequencyData) ->
  (vadThreshold < 1)%Q ->
  an_isVoiceActive
    (analyze vadThreshold sampleRate frequencyData timeDomainData) = true.
Proof.
  intros Hne Hq Hf Hvad Hthr.
  assert (Hn : 0 < length frequencyData).
  { unfold length. destruct frequencyData; [congruence|simpl; lia]. }
  destruct (vadStart_bounds _ _ Hn Hq) as (_ & H0 & H1).
  cbn. unfold vadBins.
  apply negb_true_iff.
  destruct (Qle_bool _ vadThreshold) eqn:Hle; [|reflexivity].
  apply Qle_bool_iff in Hle.
  rewrite (bandMean_const frequencyData 255 _ _ Hf H0 H1 Hvad) in Hle.
  exfalso. change (inject_Z 255 / 255)%Q with (255 / 255)%Q in Hle.
  assert (Hone : (255 / 255 == 1)%Q) by reflexivity.
  rewrite Hone in Hle. Lqa.lra.
Qed.

Lemma analyze_full_scale_voice_witness :
  repeat 255 128 <> []
  /\ (0 < nyquist None)%Q
  /\ Forall (eq 255) (repeat 255 128)
  /\ vadStart (nyquist None) (length (repeat 255 128))
     < vadEnd (nyquist None) (length (repeat 255 128))
  /\ (0.02 < 1)%Q
  /\ an_isVoiceActive (analyze 0.02 None (repeat 255 128) [128]) = true.
Proof.
  assert (H1 : repeat 255 128 <> []) by discriminate.
  assert (H2 : (0 < nyquist None)%Q) by reflexivity.
  assert (H3 : Forall (eq 255) (repeat 255 128))
    by (apply Forall_forall; intros v Hv; symmetry;
        exact (repeat_spec _ _ _ Hv)).
  assert (H4 : vadStart (nyquist None) (length (repeat 255 128))
               < vadEnd (nyquist None) (length (repeat 255 128)))
    by (vm_compute; reflexivity).
  assert (H5 : (0.02 < 1)%Q) by reflexivity.
  do 5 (split; [assumption|]).
  exact (analyze_full_scale_voice 0.02 None (repeat 255 128) [128]
           H1 H2 H3 H4 H5).
Defined.

End AudioAnalyzerMore.

(** * The analysis loop *)
Module AnalyzerLoopFacts.
Import AnalyzerLoop.
Open Scope Q_scope.

Lemma snapshotTimes_head (updateRate last : Q) (frames : list Q) :
  HdRel (apart updateRate) last (snapshotTimes updateRate last frames).
Proof.
  induction frames as [|now rest IH]; simpl; [constructor|].
  unfold throttle.
  destruct (Qle_bool updateRate (now - last)) eqn:H; simpl.
  - constructor. now apply Qle_bool_iff.
  - exact IH.
Qed.

(** X6.  However the animation frames fall, each snapshot of [analyze]
    comes at least [updateRate] ms after the one before it, the first at
    least [updateRate] after the initial [lastUpdateRef]; and a snapshot
    is only ever taken at one of the frames. *)
Theorem snapshots_never_faster_than_updateRate
    (updateRate last : Q) (frames : list Q) :
  Sorted (apart updateRate) (snapshotTimes updateRate last frames)
  /\ HdRel (apart updateRate) last (snapshotTimes updateRate last frames)
  /\ incl (snapshotTimes updateRate last frames) frames.
Proof.
  split; [|split; [apply snapshotTimes_head|]].
  - revert last. induction frames as [|now rest IH]; intros last; simpl;
      [constructor|].
    unfold throttle.
    destruct (Qle_bool updateRate (now - last)); simpl.
    + constructor; [apply IH | apply snapshotTimes_head].
    + apply IH.
  - revert last. induction frames as [|now rest IH]; intros last; simpl.
    + apply incl_refl.
    + unfold throttle.
      destruct (Qle_bool updateRate (now - last)); simpl.
      * apply incl_cons; [now left | apply incl_tl, IH].
      * apply incl_tl, IH.
Qed.

(** At the default rate of 16 ms, display frames every 10 ms give a
    snapshot every other frame. *)
Example throttled_frames :
  snapshotTimes 16 0 [10; 20; 30; 40; 50; 60] = [20; 40; 60].
Proof. reflexivity. Qed.

(** X7.  For a threshold that is not negative, the output analyzer's
    voice flag [amplitude > vadThreshold] holds exactly when the mean
    square of the waveform exceeds the square of the threshold. *)
Theorem output_voice_by_mean_square
    (vadThreshold : Q) (timeDomainData : AudioAnalyzer.Uint8Array) :
  0 <= vadThreshold ->
  (outputIsVoiceActive vadThreshold timeDomainData
   <-> vadThreshold * vadThreshold < AudioAnalyzer.meanSquare timeDomainData).
Proof.
  intros Hthr. unfold outputIsVoiceActive, AudioAnalyzer.amplitude.
  pose proof (AudioAnalyzerMore.meanSquare_nonneg timeDomainData) as Hnn.
  set (m := AudioAnalyzer.meanSquare timeDomainData) in *.
  apply Qle_Rle in Hnn, Hthr. rewrite RMicromega.Q2R_0 in Hnn, Hthr.
  assert (Hsq : Q2R (vadThreshold * vadThreshold)
                = (Q2R vadThreshold * Q2R vadThreshold)%R)
    by apply Q2R_mult.
  rewrite <- (sqrt_square (Q2R vadThreshold)) at 1 by exact Hthr.
  rewrite <- Hsq. split; intros H.
  - apply Rlt_Qlt. apply sqrt_lt_0_alt. exact H.
  - apply sqrt_lt_1_alt. split.
    + rewrite Hsq. apply Rmult_le_pos; assumption.
    + now apply Qlt_Rlt.
Qed.

Lemma output_voice_by_mean_square_witness :
  0 <= 0.02
  /\ (outputIsVoiceActive 0.02 [140; 116; 128]%Z
      <-> 0.02 * 0.02 < AudioAnalyzer.meanSquare [140; 116; 128]%Z).
Proof.
  assert (H : 0 <= 0.02) by discriminate.
  split; [exact H|].
  exact (output_voice_by_mean_square 0.02 [140; 116; 128]%Z H).
Defined.

End AnalyzerLoopFacts.

(** * Quiet stretches of the mode machine *)
Module OrbQuietFacts.
Import OrbState OrbQuiet OrbStateFacts.

Section Quiet.
Variable opts : UseOrbStateOptions.

Lemma silent_is_passive (pes : list Event) :
  forallb silent pes = true -> forallb passive pes = true.
Proof.
  induction pes as [|e pes IH]; simpl; [reflexivity|].
  intros H. apply andb_prop in H as [He Hp]. rewrite (IH Hp).
  destruct e as [op|m [|]|dt|]; try discriminate; reflexivity.
Qed.

Lemma silent_is_inert (pes : list Event) :
  forallb silent pes = true -> forallb inert pes = true.
Proof.
  induction pes as [|e pes IH]; simpl; [reflexivity|].
  intros H. apply andb_prop in H as [He Hp]. rewrite (IH Hp).
  destruct e as [op|m [|]|dt|]; try discriminate; reflexivity.
Qed.

Lemma voice_false_noop (m : OrbMode) (s : State) :
  updateVoiceActivity opts m false s = s.
Proof.
  unfold updateVoiceActivity.
  now destruct (negb (OrbMode_eqb m listening)).
Qed.

Lemma clearTimeouts_nothing_pending (s : State) :
  timers s = [] ->
  timers (clearTimeouts s) = []
  /\ mode (clearTimeouts s) = mode s
  /\ now (clearTimeouts s) = now s.
Proof.
  intros Ht. unfold clearTimeouts.
  destruct (timeoutRef s) as [id|]; [|now repeat split].
  destruct (id =? 0); [now repeat split|].
  simpl. rewrite Ht. now repeat split.
Qed.

(** Nothing pending and no voice: nothing happens. *)
Lemma silent_quiet (pes : list Event) (s : State) :
  forallb silent pes = true -> timers s = [] ->
  mode (run opts pes s) = mode s
  /\ timers (run opts pes s) = []
  /\ firings opts pes s = [].
Proof.
  revert s. induction pes as [|e pes IH]; intros s Hp Ht; simpl.
  - now repeat split.
  - simpl in Hp. apply andb_prop in Hp as [He Hp].
    destruct e as [op|m [|]|dt|]; try discriminate; simpl.
    + rewrite voice_false_noop. now apply IH.
    + destruct (elapse_spec opts dt s) as (_ & Ht' & _ & _ & _ & Hm').
      rewrite Ht in Ht', Hm' |- *. simpl in Ht', Hm' |- *.
      destruct (IH (elapse dt s) Hp Ht') as (H1 & H2 & H3).
      rewrite H1, H2, H3, Hm'. now repeat split.
Qed.

(** One pending timer and no voice: the timer fires at the first look
    of the host at or after its due time. *)
Lemma pending_timer_silent (pes : list Event) (s : State) (tm : Timer) :
  forallb silent pes = true ->
  timers s = [tm] -> now s < timer_due tm ->
  if now s + elapsed pes <? timer_due tm
  then mode (run opts pes s) = mode s
       /\ timers (run opts pes s) = [tm]
       /\ firings opts pes s = []
  else mode (run opts pes s) = idle
       /\ timers (run opts pes s) = []
       /\ firings opts pes s = [tm].
Proof.
  revert s. induction pes as [|e pes IH]; intros s Hp Ht Hdue.
  - simpl. rewrite Z.add_0_r. destruct (Z.ltb_spec (now s) (timer_due tm)).
    + now repeat split.
    + lia.
  - simpl in Hp. apply andb_prop in Hp as [He Hp].
    destruct e as [op|m [|]|dt|]; try discriminate.
    + simpl. rewrite voice_false_noop. now apply IH.
    + cbn [run fold_left step firings elapsed fold_right].
      destruct (elapse_spec opts dt s) as (Hnow & Ht' & _ & _ & _ & Hm').
      cbv zeta in Hnow, Ht', Hm'.
      rewrite Ht in Ht', Hm' |- *. cbn [filter] in Ht', Hm' |- *.
      unfold isDue in Ht', Hm' |- *.
      pose proof (elapsed_nonneg pes) as Hnn.
      change (fold_right _ 0 pes) with (elapsed pes).
      change (fold_left (step opts) pes (elapse dt s))
        with (run opts pes (elapse dt s)).
      destruct (Z.leb_spec (timer_due tm) (now s + Z.of_N dt)) as [Hd|Hd];
        cbn [negb] in Ht'.
      * destruct (silent_quiet pes (elapse dt s) Hp Ht') as (H1 & H2 & H3).
        destruct (Z.ltb_spec (now s + (Z.of_N dt + elapsed pes))
                             (timer_due tm)); [lia|].
        rewrite H1, H2, H3, Hm'. now repeat split.
      * specialize (IH (elapse dt s) Hp).
        rewrite Hm', Ht', Hnow in IH. rewrite Z.add_assoc.
        apply IH; [reflexivity | assumption].
Qed.

(** With auto-idle off, voice reports arm nothing either. *)
Lemma no_autoIdle_quiet (pes : list Event) (s : State) :
  autoIdle opts = false ->
  forallb passive pes = true -> timers s = [] ->
  mode (run opts pes s) = mode s
  /\ timers (run opts pes s) = []
  /\ firings opts pes s = [].
Proof.
  intros Hauto. revert s.
  induction pes as [|e pes IH]; intros s Hp Ht; simpl.
  - now repeat split.
  - simpl in Hp. apply andb_prop in Hp as [He Hp].
    destruct e as [op|m b|dt|]; try discriminate; simpl.
    + assert (Hu : timers (updateVoiceActivity opts m b s) = []
                   /\ mode (updateVoiceActivity opts m b s) = mode s).
      { unfold updateVoiceActivity.
        destruct (negb (OrbMode_eqb m listening)); [now split|].
        destruct b; [|now split]. rewrite Hauto.
        destruct (clearTimeouts_nothing_pending (touchVoiceActivity s) Ht)
          as (H1 & H2 & _).
        now split. }
      destruct Hu as [Hut Hum].
      destruct (IH _ Hp Hut) as (H1 & H2 & H3).
      rewrite H1, H2, H3, Hum. now repeat split.
    + destruct (elapse_spec opts dt s) as (_ & Ht' & _ & _ & _ & Hm').
      rewrite Ht in Ht', Hm' |- *. simpl in Ht', Hm' |- *.
      destruct (IH (elapse dt s) Hp Ht') as (H1 & H2 & H3).
      rewrite H1, H2, H3, Hm'. now repeat split.
Qed.

Lemma timerHasOwner_step (e : Event) (s : State) :
  Inv s -> timerHasOwner s ->
  freshCalls opts [e] s = true ->
  timerHasOwner (step opts s e).
Proof.
  intros HI Ho Hf. unfold timerHasOwner in *.
  destruct e as [op|m b|dt|]; simpl.
  - destruct (call_spec opts op s HI) as (Ht & Hm & _ & _).
    rewrite Ht, Hm. destruct op; simpl; auto; try congruence.
  - simpl in Hf. rewrite andb_true_r in Hf.
    destruct (OrbMode_eqb_spec m (mode s)) as [->|]; [|discriminate].
    destruct (OrbMode_eqb_spec (mode s) listening) as [Hm|Hm].
    + rewrite Hm. destruct b.
      * destruct (updateVoiceActivity_true_spec opts s HI) as (_ & H & _).
        intros _. left. now rewrite H.
      * rewrite voice_false_noop. intros _. now left.
    + now rewrite (updateVoiceActivity_elsewhere opts _ b s Hm).
  - destruct (elapse_spec opts dt s) as (_ & Ht' & _ & _ & _ & Hm').
    cbv zeta in Ht', Hm'. rewrite Ht', Hm'.
    pose proof (inv_one s HI) as Hone.
    destruct (timers s) as [|tm [|tm' l]]; simpl in *; try lia.
    + congruence.
    + destruct (isDue (now s + Z.of_N dt) tm); simpl.
      * congruence.
      * intros _. apply Ho. discriminate.
  - destruct (clearTimeouts_spec s HI) as (Ht & _). rewrite Ht. congruence.
Qed.

Lemma timerHasOwner_run (evs : list Event) (s : State) :
  Inv s -> timerHasOwner s ->
  freshCalls opts evs s = true ->
  timerHasOwner (run opts evs s).
Proof.
  revert s. induction evs as [|e evs IH]; intros s HI Ho Hf; simpl;
    [exact Ho|].
  cbn [freshCalls] in Hf. apply andb_prop in Hf as [He Hf].
  apply IH; [now apply Inv_step | | exact Hf].
  apply timerHasOwner_step; [exact HI | exact Ho |].
  cbn [freshCalls]. now rewrite He.
Qed.
End Quiet.

(** X8.  After startListening() with auto-idle on and a positive
    listeningTimeout, if nothing is called and no voice is reported, the
    mode is Listening while less than listeningTimeout ms have passed and
    Idle from then on, with nothing pending; the one timer that fires is
    the one startListening armed. *)
Theorem listening_times_out_in_silence
    (opts : UseOrbStateOptions) (evs pes : list Event) :
  autoIdle opts = true -> 0 < listeningTimeout opts ->
  forallb silent pes = true ->
  let s := run opts evs init in
  let s0 := startListening opts s in
  let tm := {| timer_id := nextTimerId s;
               timer_due := now s + listeningTimeout opts |} in
  let s1 := run opts pes s0 in
  if elapsed pes <? listeningTimeout opts
  then mode s1 = listening /\ timers s1 = [tm] /\ firings opts pes s0 = []
  else mode s1 = idle /\ timers s1 = [] /\ firings opts pes s0 = [tm].
Proof.
  intros Hauto HL Hp s s0 tm s1.
  assert (HI : Inv s) by apply Inv_run, Inv_init.
  destruct (call_spec opts StartListening s HI) as (Ht & Hm & Hnow & _).
  cbn [call armedBy modeAfter] in Ht, Hm, Hnow. rewrite Hauto in Ht.
  fold s0 in Ht, Hm, Hnow. fold tm in Ht.
  assert (Hdue : now s0 < timer_due tm) by (rewrite Hnow; simpl; lia).
  pose proof (pending_timer_silent opts pes s0 tm Hp Ht Hdue) as H.
  rewrite Hnow, Hm in H. fold s1 in H.
  replace (now s + elapsed pes <? timer_due tm)
    with (elapsed pes <? listeningTimeout opts) in H; [exact H|].
  simpl. destruct (Z.ltb_spec (elapsed pes) (listeningTimeout opts));
    destruct (Z.ltb_spec (now s + elapsed pes)
                         (now s + listeningTimeout opts));
    lia || reflexivity.
Qed.

Lemma listening_times_out_in_silence_witness :
  autoIdle DEFAULT_OPTIONS = true
  /\ 0 < listeningTimeout DEFAULT_OPTIONS
  /\ forallb silent [Elapse 1500; UpdateVoiceActivity listening false; Elapse 600]
     = true
  /\ mode (run DEFAULT_OPTIONS
             [Elapse 1500; UpdateVoiceActivity listening false; Elapse 600]
             (startListening DEFAULT_OPTIONS (run DEFAULT_OPTIONS [] init)))
     = idle.
Proof.
  assert (H1 : autoIdle DEFAULT_OPTIONS = true) by reflexivity.
  assert (H2 : 0 < listeningTimeout DEFAULT_OPTIONS) by reflexivity.
  assert (H3 : forallb silent
                 [Elapse 1500; UpdateVoiceActivity listening false; Elapse 600] = true)
    by reflexivity.
  do 3 (split; [assumption|]).
  exact (proj1 (listening_times_out_in_silence DEFAULT_OPTIONS []
                  [Elapse 1500; UpdateVoiceActivity listening false; Elapse 600]
                  H1 H2 H3)).
Defined.

(** X9.  With auto-idle off, Listening never times out: after
    startListening() nothing is pending, and however much time passes
    and whatever voice activity is reported, the mode stays Listening and
    no timer fires. *)
Theorem listening_without_autoIdle_stays
    (opts : UseOrbStateOptions) (evs pes : list Event) :
  autoIdle opts = false ->
  forallb passive pes = true ->
  let s0 := startListening opts (run opts evs init) in
  timers s0 = []
  /\ mode (run opts pes s0) = listening
  /\ firings opts pes s0 = [].
Proof.
  intros Hauto Hp s0.
  assert (HI : Inv (run opts evs init)) by apply Inv_run, Inv_init.
  destruct (call_spec opts StartListening _ HI) as (Ht & Hm & _ & _).
  cbn [call armedBy modeAfter] in Ht, Hm. rewrite Hauto in Ht.
  fold s0 in Ht, Hm.
  destruct (no_autoIdle_quiet opts pes s0 Hauto Hp Ht) as (H1 & _ & H3).
  rewrite Hm in H1. now repeat split.
Qed.

Lemma listening_without_autoIdle_stays_witness :
  autoIdle {| listeningTimeout := 2000; thinkingTimeout := 30000;
              autoIdle := false |} = false
  /\ forallb passive [Elapse 60000; UpdateVoiceActivity listening true; Elapse 60000]
     = true
  /\ mode (run {| listeningTimeout := 2000; thinkingTimeout := 30000;
                  autoIdle := false |}
             [Elapse 60000; UpdateVoiceActivity listening true; Elapse 60000]
             (startListening
                {| listeningTimeout := 2000; thinkingTimeout := 30000;
                   autoIdle := false |}
                (run {| listeningTimeout := 2000; thinkingTimeout := 30000;
                        autoIdle := false |} [Call StartThinking] init)))
     = listening.
Proof.
  split; [reflexivity|]. split; [reflexivity|].
  exact (proj1 (proj2
           (listening_without_autoIdle_stays
              {| listeningTimeout := 2000; thinkingTimeout := 30000;
                 autoIdle := false |}
              [Call StartThinking]
              [Elapse 60000; UpdateVoiceActivity listening true; Elapse 60000]
              eq_refl eq_refl))).
Defined.

(** X10.  An operation other than startThinking that sets a mode other
    than Listening (startSpeaking, stopListening, stopSpeaking, reset,
    setMode to Idle, Thinking or Speaking) leaves nothing pending, and
    the mode it sets then stays for as long as only time passes and only
    such voice reports arrive as the guards of updateVoiceActivity turn
    away (no voice, or the callback of a render that was not Listening):
    Speaking has no timeout of its own, and Thinking entered through
    setMode has no safety timer. *)
Theorem mode_without_timer_stays
    (opts : UseOrbStateOptions) (evs pes : list Event) (op : Op) :
  op <> StartThinking -> modeAfter op <> listening ->
  forallb inert pes = true ->
  let s0 := call opts op (run opts evs init) in
  timers s0 = []
  /\ mode (run opts pes s0) = modeAfter op
  /\ firings opts pes s0 = [].
Proof.
  intros Hop Hm Hp s0.
  assert (HI : Inv (run opts evs init)) by apply Inv_run, Inv_init.
  destruct (call_spec opts op _ HI) as (Ht & Hm' & _ & _).
  fold s0 in Ht, Hm'.
  assert (Ht0 : timers s0 = []).
  { rewrite Ht. destruct op; simpl in *; congruence. }
  destruct (quiet_when_nothing_pending opts pes s0 Hp Ht0) as (H1 & _ & H3).
  rewrite Hm' in H1. now repeat split.
Qed.

Lemma mode_without_timer_stays_witness :
  SetMode thinking <> StartThinking
  /\ modeAfter (SetMode thinking) <> listening
  /\ forallb inert [Elapse 40000; UpdateVoiceActivity thinking true;
                    UpdateVoiceActivity listening false] = true
  /\ mode (run DEFAULT_OPTIONS
             [Elapse 40000; UpdateVoiceActivity thinking true;
              UpdateVoiceActivity listening false]
             (call DEFAULT_OPTIONS (SetMode thinking)
                (run DEFAULT_OPTIONS [Call StartListening] init)))
     = thinking.
Proof.
  assert (H1 : SetMode thinking <> StartThinking) by discriminate.
  assert (H2 : modeAfter (SetMode thinking) <> listening) by discriminate.
  assert (H3 : forallb inert [Elapse 40000; UpdateVoiceActivity thinking true;
                              UpdateVoiceActivity listening false]
               = true) by reflexivity.
  do 3 (split; [assumption|]).
  exact (proj1 (proj2
           (mode_without_timer_stays DEFAULT_OPTIONS [Call StartListening]
              [Elapse 40000; UpdateVoiceActivity thinking true;
               UpdateVoiceActivity listening false] (SetMode thinking)
              H1 H2 H3))).
Defined.

(** X11.  Listening entered through setMode arms no fallback: in silence
    the mode stays Listening however long, and nothing fires.  With
    auto-idle on, the first report of voice activity through the callback
    of a Listening render then arms the fallback timer for a full
    listeningTimeout. *)
Theorem setMode_listening_waits_for_voice
    (opts : UseOrbStateOptions) (evs pes : list Event) :
  autoIdle opts = true ->
  forallb silent pes = true ->
  let s0 := setMode listening (run opts evs init) in
  let s1 := run opts pes s0 in
  timers s0 = []
  /\ mode s1 = listening
  /\ firings opts pes s0 = []
  /\ timers (updateVoiceActivity opts listening true s1)
     = [{| timer_id := nextTimerId s1;
           timer_due := now s1 + listeningTimeout opts |}].
Proof.
  intros Hauto Hp s0 s1.
  assert (HI : Inv (run opts evs init)) by apply Inv_run, Inv_init.
  destruct (call_spec opts (SetMode listening) _ HI) as (Ht & Hm & _ & HI0).
  cbn [call armedBy modeAfter] in Ht, Hm, HI0. fold s0 in Ht, Hm, HI0.
  destruct (silent_quiet opts pes s0 Hp Ht) as (H1 & _ & H3).
  fold s1 in H1. rewrite Hm in H1.
  split; [exact Ht|]. split; [exact H1|]. split; [exact H3|].
  assert (HI1 : Inv s1) by (apply Inv_run; exact HI0).
  destruct (updateVoiceActivity_true_spec opts s1 HI1) as (H & _).
  now rewrite Hauto in H.
Qed.

Lemma setMode_listening_waits_for_voice_witness :
  autoIdle DEFAULT_OPTIONS = true
  /\ forallb silent [Elapse 10000; UpdateVoiceActivity listening false] = true
  /\ mode (run DEFAULT_OPTIONS [Elapse 10000; UpdateVoiceActivity listening false]
             (setMode listening (run DEFAULT_OPTIONS [] init)))
     = listening.
Proof.
  split; [reflexivity|]. split; [reflexivity|].
  exact (proj1 (proj2
           (setMode_listening_waits_for_voice DEFAULT_OPTIONS []
              [Elapse 10000; UpdateVoiceActivity listening false] eq_refl eq_refl))).
Defined.

(** X12.  The cleanup at unmount cancels whatever is pending: after it,
    however much time passes, no timer fires and the mode is the one the
    hook had at unmount. *)
Theorem unmount_cancels_timers
    (opts : UseOrbStateOptions) (evs pes : list Event) :
  forallb silent pes = true ->
  let s := run opts evs init in
  let s0 := step opts s Unmount in
  timers s0 = []
  /\ mode (run opts pes s0) = mode s
  /\ firings opts pes s0 = [].
Proof.
  intros Hp s s0.
  assert (HI : Inv s) by apply Inv_run, Inv_init.
  destruct (clearTimeouts_spec s HI) as (Ht & Hm & _).
  change (clearTimeouts s) with s0 in Ht, Hm.
  destruct (silent_quiet opts pes s0 Hp Ht) as (H1 & _ & H3).
  rewrite Hm in H1. now repeat split.
Qed.

Lemma unmount_cancels_timers_witness :
  forallb silent [Elapse 30000; Elapse 30000] = true
  /\ mode (run DEFAULT_OPTIONS [Elapse 30000; Elapse 30000]
             (step DEFAULT_OPTIONS
                (run DEFAULT_OPTIONS [Call StartThinking; Elapse 10] init)
                Unmount))
     = thinking.
Proof.
  split; [reflexivity|].
  exact (proj1 (proj2
           (unmount_cancels_timers DEFAULT_OPTIONS
              [Call StartThinking; Elapse 10] [Elapse 30000; Elapse 30000]
              eq_refl))).
Defined.

(** X13.  In every state the hook can reach, when a stretch of time
    makes a timer fire it is the only one pending, and the hook is left
    Idle with nothing pending.  And as long as every voice report came
    through the callback of the latest render, a pending timer belongs to
    Listening or to Thinking: in Idle and in Speaking nothing is
    pending. *)
Theorem timers_belong_to_listening_or_thinking
    (opts : UseOrbStateOptions) (evs : list Event) (dt : N) :
  let s := run opts evs init in
  (freshCalls opts evs init = true ->
   timers s <> [] -> mode s = listening \/ mode s = thinking)
  /\ (firings opts [Elapse dt] s <> [] ->
      firings opts [Elapse dt] s = timers s
      /\ mode (elapse dt s) = idle
      /\ timers (elapse dt s) = []).
Proof.
  intros s.
  assert (HI : Inv s) by apply Inv_run, Inv_init.
  split.
  - intros Hf. apply (timerHasOwner_run opts evs init Inv_init); [|exact Hf].
    intros H. now elim H.
  - cbn [firings]. rewrite app_nil_r.
    destruct (elapse_spec opts dt s) as (_ & Ht' & _ & _ & _ & Hm').
    cbv zeta in Ht', Hm'. rewrite Ht', Hm'.
    pose proof (inv_one s HI) as Hone.
    destruct (timers s) as [|tm [|tm' l]]; simpl in *; try lia.
    + congruence.
    + destruct (isDue (now s + Z.of_N dt) tm); simpl.
      * now repeat split.
      * congruence.
Qed.

Lemma timers_belong_to_listening_or_thinking_witness :
  freshCalls DEFAULT_OPTIONS
    [Call StartThinking; UpdateVoiceActivity thinking true; Elapse 100] init
  = true
  /\ timers (run DEFAULT_OPTIONS
               [Call StartThinking; UpdateVoiceActivity thinking true;
                Elapse 100] init) <> []
  /\ (mode (run DEFAULT_OPTIONS
              [Call StartThinking; UpdateVoiceActivity thinking true;
               Elapse 100] init) = listening
      \/ mode (run DEFAULT_OPTIONS
                 [Call StartThinking; UpdateVoiceActivity thinking true;
                  Elapse 100] init) = thinking).
Proof.
  assert (Hf : freshCalls DEFAULT_OPTIONS
                 [Call StartThinking; UpdateVoiceActivity thinking true;
                  Elapse 100] init = true) by reflexivity.
  assert (H : timers (run DEFAULT_OPTIONS
                        [Call StartThinking;
                         UpdateVoiceActivity thinking true; Elapse 100]
                        init) <> []) by discriminate.
  split; [exact Hf|]. split; [exact H|].
  exact (proj1 (timers_belong_to_listening_or_thinking DEFAULT_OPTIONS
                  [Call StartThinking; UpdateVoiceActivity thinking true;
                   Elapse 100] 0%N) Hf H).
Defined.

(** What freshness keeps out: a report of voice through the callback of
    a Listening render, made after startSpeaking(), arms the listening
    fallback in Speaking, and Speaking is then cut short to Idle. *)
Example stale_voice_report_times_out_speaking :
  let s := run DEFAULT_OPTIONS
             [Call StartListening; Call StartSpeaking;
              UpdateVoiceActivity listening true] init in
  mode s = speaking
  /\ timers s <> []
  /\ mode (run DEFAULT_OPTIONS [Elapse 2000] s) = idle.
Proof. repeat split. discriminate. Qed.

End OrbQuietFacts.

(** * Push to talk *)
Module PushToTalkFacts.
Import PushToTalk.

Lemma alternating_snoc (b : bool) (cs : list Callback) (c : Callback) :
  alternating b cs = true ->
  isStart c = xorb b (Nat.odd (List.length cs)) ->
  alternating b (cs ++ [c]) = true.
Proof.
  revert b. induction cs as [|c0 cs IH]; intros b Ha Hc.
  - change (Nat.odd (List.length (@nil Callback))) with false in Hc.
    destruct c, b; simpl in *; congruence.
  - simpl List.length in Hc. rewrite Nat.odd_succ, <- Nat.negb_odd in Hc.
    destruct c0; cbn [alternating app] in *;
      apply andb_prop in Ha as [Hb Ha]; rewrite Hb; cbn [andb];
      apply IH; try exact Ha; rewrite Hc;
      destruct b; try discriminate;
      now destruct (Nat.odd (List.length cs)).
Qed.

Lemma lastIsStart_snoc (b : bool) (cs : list Callback) (c : Callback) :
  lastIsStart b (cs ++ [c]) = isStart c.
Proof.
  revert b. induction cs as [|c0 cs IH]; intros b; simpl; [reflexivity|].
  apply IH.
Qed.

Lemma endsFollowStarts_snoc (b : bool) (cs : list Callback) (c : Callback) :
  endsFollowStarts b (cs ++ [c])
  = endsFollowStarts b cs && (isStart c || lastIsStart b cs).
Proof.
  revert b. induction cs as [|c0 cs IH]; intros b.
  - destruct c, b; reflexivity.
  - destruct c0; cbn [app endsFollowStarts lastIsStart isStart].
    + apply IH.
    + rewrite IH. now rewrite andb_assoc.
Qed.

(** ** Whatever the clock and the renders *)

Lemma Shape_init : Shape init.
Proof.
  constructor; simpl; try reflexivity.
  split; [discriminate | intros H; now elim H].
Qed.

Lemma Shape_startRecording (r : bool) (now : Z) (s : State) :
  Shape s -> Shape (startRecording r now s).
Proof.
  intros HS. unfold startRecording. destruct r; simpl; [exact HS|].
  destruct HS as [H1 H2 H3]. constructor; simpl.
  - split; [discriminate | reflexivity].
  - apply lastIsStart_snoc.
  - rewrite endsFollowStarts_snoc, H3. reflexivity.
Qed.

Lemma Shape_stopRecording (r : bool) (now : Z) (s : State) :
  Shape s -> Shape (stopRecording r now s).
Proof.
  intros HS. unfold stopRecording.
  destruct (startTimeRef s) as [start|] eqn:Hs; [|exact HS].
  destruct (r && negb (start =? 0)); [|exact HS].
  destruct HS as [H1 H2 H3].
  assert (Hr : isRecording s = true) by (apply H1; rewrite Hs; discriminate).
  constructor; simpl.
  - split; [discriminate | intros H; now elim H].
  - apply lastIsStart_snoc.
  - rewrite endsFollowStarts_snoc, H3, H2, Hr. reflexivity.
Qed.

Lemma Shape_step (e : Event) (s : State) : Shape s -> Shape (step s e).
Proof.
  intros HS. destruct e as [r now|r now|r now]; simpl.
  - now apply Shape_startRecording.
  - now apply Shape_stopRecording.
  - unfold toggleRecording. destruct r.
    + now apply Shape_stopRecording.
    + now apply Shape_startRecording.
Qed.

Lemma Shape_run (evs : list Event) (s : State) : Shape s -> Shape (run evs s).
Proof.
  revert s. induction evs as [|e evs IH]; intros s HS; simpl; [exact HS|].
  apply IH, Shape_step, HS.
Qed.

(** ** With fresh callbacks *)

Lemma Paired_init : Paired init.
Proof. constructor; reflexivity. Qed.

Lemma Paired_start_fresh (now : Z) (s : State) :
  Paired s -> Paired (startRecording (isRecording s) now s).
Proof.
  intros HP. unfold startRecording.
  destruct (isRecording s) eqn:Hr; simpl; [exact HP|].
  destruct HP as [H3 H4]. constructor; simpl.
  - apply alternating_snoc; [exact H3|]. rewrite H4, Hr. reflexivity.
  - rewrite length_app, Nat.add_1_r, Nat.odd_succ, <- Nat.negb_odd, H4, Hr.
    reflexivity.
Qed.

Lemma Paired_stop_fresh (now : Z) (s : State) :
  Paired s -> Paired (stopRecording (isRecording s) now s).
Proof.
  intros HP. unfold stopRecording.
  destruct (startTimeRef s) as [start|]; [|exact HP].
  destruct (isRecording s) eqn:Hr; simpl; [|exact HP].
  destruct (negb (start =? 0)); [|exact HP].
  destruct HP as [H3 H4]. constructor; simpl.
  - apply alternating_snoc; [exact H3|]. rewrite H4, Hr. reflexivity.
  - rewrite length_app, Nat.add_1_r, Nat.odd_succ, <- Nat.negb_odd, H4, Hr.
    reflexivity.
Qed.

Lemma Paired_run (evs : list Event) (s : State) :
  freshCalls evs s = true -> Paired s -> Paired (run evs s).
Proof.
  revert s. induction evs as [|e evs IH]; intros s Hf HP; simpl; [exact HP|].
  cbn [freshCalls] in Hf. apply andb_prop in Hf as [He Hf].
  apply eqb_prop in He. apply IH; [exact Hf|].
  destruct e as [r now|r now|r now]; simpl in He |- *; subst r.
  - now apply Paired_start_fresh.
  - now apply Paired_stop_fresh.
  - unfold toggleRecording. destruct (isRecording s) eqn:Hr.
    + rewrite <- Hr. now apply Paired_stop_fresh.
    + rewrite <- Hr. now apply Paired_start_fresh.
Qed.

(** ** With a clock that never goes back *)

Lemma Recording_init (t : Z) : Inv t init.
Proof. constructor; simpl; [discriminate | constructor]. Qed.

Lemma Recording_later (t t' : Z) (s : State) : t <= t' -> Inv t s -> Inv t' s.
Proof.
  intros Hle [H1 H5]. constructor; [|exact H5].
  intros t0 Hs. specialize (H1 t0 Hs). lia.
Qed.

Lemma Recording_start (r : bool) (now : Z) (s : State) :
  1 <= now -> Inv now s -> Inv now (startRecording r now s).
Proof.
  intros Hnow HI. unfold startRecording. destruct r; simpl; [exact HI|].
  destruct HI as [H1 H5]. constructor; simpl.
  - intros t0 Ht0. injection Ht0 as <-. lia.
  - apply Forall_app. split; [exact H5 | repeat constructor].
Qed.

Lemma Recording_stop (r : bool) (now : Z) (s : State) :
  Inv now s -> Inv now (stopRecording r now s).
Proof.
  intros HI. unfold stopRecording.
  destruct (startTimeRef s) as [start|] eqn:Hs; [|exact HI].
  destruct (r && negb (start =? 0)); [|exact HI].
  destruct HI as [H1 H5]. specialize (H1 start Hs).
  constructor; simpl.
  - discriminate.
  - apply Forall_app. split; [exact H5|]. repeat constructor. simpl. lia.
Qed.

Lemma Recording_step (e : Event) (t : Z) (s : State) :
  1 <= t -> t <= timeOf e -> Inv t s -> Inv (timeOf e) (step s e).
Proof.
  intros Ht Hle HI. apply (Recording_later t (timeOf e) s Hle) in HI.
  destruct e as [r now|r now|r now]; simpl in *.
  - apply Recording_start; [lia | exact HI].
  - now apply Recording_stop.
  - unfold toggleRecording. destruct r.
    + now apply Recording_stop.
    + apply Recording_start; [lia | exact HI].
Qed.

Lemma Recording_run (evs : list Event) (t : Z) (s : State) :
  1 <= t -> clockFrom t evs -> Inv t s -> exists t', Inv t' (run evs s).
Proof.
  revert t s. induction evs as [|e evs IH]; intros t s Ht Hc HI.
  - exists t. exact HI.
  - destruct Hc as [Hle Hc]. simpl.
    apply (IH (timeOf e)); [lia | exact Hc | now apply (Recording_step e t)].
Qed.



(** Two presses that both reach the [startRecording] of the render that
    saw no recording: two starts in a row. *)
Example two_starts_from_one_render :
  calls (run [StartRecording false 100; StartRecording false 130;
              StopRecording true 500] init)
  = [OnRecordingStart; OnRecordingStart; OnRecordingEnd 370].
Proof. reflexivity. Qed.

(** X15.  Over calls at clock readings that never go back and are never
    before 1, every duration the hook reports through onRecordingEnd is
    zero or more, however stale the callbacks. *)
Theorem recording_durations_nonneg (evs : list Event) :
  clockFrom 1 evs ->
  Forall durationNonneg (calls (run evs init)).
Proof.
  intros Hc.
  destruct (Recording_run evs 1 init ltac:(lia) Hc (Recording_init 1))
    as [t HI].
  apply HI.
Qed.

Lemma recording_durations_nonneg_witness :
  clockFrom 1 [StartRecording false 100; StopRecording true 100;
               ToggleRecording false 250; StartRecording false 300;
               ToggleRecording true 900]
  /\ Forall durationNonneg
       (calls (run [StartRecording false 100; StopRecording true 100;
                    ToggleRecording false 250; StartRecording false 300;
                    ToggleRecording true 900] init)).
Proof.
  assert (H : clockFrom 1 [StartRecording false 100; StopRecording true 100;
                           ToggleRecording false 250;
                           StartRecording false 300;
                           ToggleRecording true 900])
    by (simpl; lia).
  split; [exact H|].
  exact (recording_durations_nonneg _ H).
Defined.

(** X16.  Press and release.  A start through a callback that saw no
    recording, at a clock reading [t0] other than 0, followed by a stop
    through a callback that saw the recording, at [t1], makes exactly the
    two callbacks onRecordingStart and onRecordingEnd(t1 - t0) and ends
    not recording with the start time cleared; toggling through the same
    two renders does the same.  After the start, a further start through
    a callback that saw the recording changes nothing, while one through
    the callback of the old render (a second press before the next
    render) starts over: it calls onRecordingStart again and moves the
    start time to its own clock reading.  After the stop, any further
    stop changes nothing. *)
Theorem press_release_round_trip (t0 t1 t : Z) (r : bool) (s : State) :
  t0 <> 0 ->
  let started := startRecording false t0 s in
  let stopped := stopRecording true t1 started in
  stopped
  = {| isRecording := false; startTimeRef := None;
       calls := calls s ++ [OnRecordingStart; OnRecordingEnd (t1 - t0)] |}
  /\ toggleRecording true t1 (toggleRecording false t0 s) = stopped
  /\ startRecording true t started = started
  /\ startRecording false t started
     = {| isRecording := true; startTimeRef := Some t;
          calls := calls s ++ [OnRecordingStart; OnRecordingStart] |}
  /\ stopRecording r t stopped = stopped.
Proof.
  intros Ht0 started stopped.
  assert (Hstop : stopped
                  = {| isRecording := false; startTimeRef := None;
                       calls := calls s ++ [OnRecordingStart;
                                            OnRecordingEnd (t1 - t0)] |}).
  { unfold stopped, started, startRecording, stopRecording. simpl.
    destruct (Z.eqb_spec t0 0); [contradiction|]. simpl.
    now rewrite <- app_assoc. }
  split; [exact Hstop|]. split; [reflexivity|]. split; [reflexivity|].
  split.
  - unfold started, startRecording. simpl. now rewrite <- app_assoc.
  - rewrite Hstop. reflexivity.
Qed.

Lemma press_release_round_trip_witness :
  1000 <> 0
  /\ stopRecording true 1800 (startRecording false 1000 init)
     = {| isRecording := false; startTimeRef := None;
          calls := [OnRecordingStart; OnRecordingEnd 800] |}.
Proof.
  assert (H2 : 1000 <> 0) by discriminate.
  split; [exact H2|].
  exact (proj1 (press_release_round_trip 1000 1800 0 false init H2)).
Defined.

End PushToTalkFacts.

(** * More on the particle field *)
Module ParticleFieldFacts.
Import ParticleOrb ParticleField ParticleOrbFacts.
Open Scope Q_scope.

Lemma lerp_between (a b t : Q) : 0 <= t <= 1 -> between a b (lerp a b t).
Proof.
  intros Ht. unfold between, lerp.
  destruct (Qlt_le_dec a b); [left | right]; split; Lqa.nra.
Qed.

Lemma between_target (a b : Q) : between a b b.
Proof.
  unfold between. destruct (Qlt_le_dec a b); [left | right]; split; Lqa.lra.
Qed.

Lemma lerp_start (a b t : Q) : t == 0 -> between a a (lerp a b t).
Proof.
  intros Ht. unfold between, lerp. left. rewrite Ht. split; Lqa.lra.
Qed.

(** X17.  While a transition runs (progress in [0,1]), every style
    parameter and every colour channel that [getModeParams] and
    [getModeColor] return lies between the values of the [from] and the
    [to] profile; at progress 0 they are those of [from]. *)
Theorem style_between_profiles (tr : ModeTransition) :
  0 <= progress tr <= 1 ->
  paramsBetween (MODE_PARAMS (from tr)) (MODE_PARAMS (to tr))
                (getModeParams tr)
  /\ colorBetween (MODE_COLORS (from tr)) (MODE_COLORS (to tr))
                  (getModeColor tr)
  /\ (progress tr == 0 ->
      paramsBetween (MODE_PARAMS (from tr)) (MODE_PARAMS (from tr))
                    (getModeParams tr)
      /\ colorBetween (MODE_COLORS (from tr)) (MODE_COLORS (from tr))
                      (getModeColor tr)).
Proof.
  intros Hp. unfold getModeParams, getModeColor, paramsBetween, colorBetween.
  destruct (Qle_bool 1 (progress tr)) eqn:H1.
  - split; [|split].
    + repeat split; apply between_target.
    + repeat split; apply between_target.
    + intros H0. apply Qle_bool_iff in H1. exfalso. Lqa.lra.
  - cbn [radiusScale jitter rotationSpeed pulseSpeed particleAlpha
         hue saturation lightness].
    split; [|split].
    + repeat split; apply lerp_between; exact Hp.
    + repeat split; apply lerp_between; exact Hp.
    + intros H0. split; repeat split; apply lerp_start; exact H0.
Qed.

Lemma style_between_profiles_witness :
  0 <= progress {| from := idle; to := speaking; progress := 0.5 |} <= 1
  /\ paramsBetween (MODE_PARAMS idle) (MODE_PARAMS speaking)
       (getModeParams {| from := idle; to := speaking; progress := 0.5 |}).
Proof.
  assert (H : 0 <= progress {| from := idle; to := speaking;
                               progress := 0.5 |} <= 1)
    by (split; discriminate).
  split; [exact H|].
  exact (proj1 (style_between_profiles
                  {| from := idle; to := speaking; progress := 0.5 |} H)).
Defined.

Lemma afterFrames_succ (n : nat) (tr : ModeTransition) :
  afterFrames (S n) tr = advanceProgress (afterFrames n tr).
Proof. reflexivity. Qed.

Lemma afterFrames_progress (n : nat) (a b : OrbMode) :
  let tr := afterFrames n {| from := a; to := b; progress := 0 |} in
  from tr = a /\ to tr = b
  /\ progress tr == Math_min (inject_Z (Z.of_nat n) * 0.02) 1.
Proof.
  induction n as [|n IH].
  - simpl. repeat split; reflexivity.
  - cbv zeta in *. rewrite afterFrames_succ.
    set (tr := afterFrames n {| from := a; to := b; progress := 0 |}) in *.
    destruct IH as (Hf & Ht & Hp).
    destruct (advanceProgress_spec tr) as (Hf' & Ht' & Hlt & Hge).
    split; [congruence|]. split; [congruence|].
    assert (Hn : inject_Z (Z.of_nat (S n)) == inject_Z (Z.of_nat n) + 1).
    { rewrite Nat2Z.inj_succ, <- Z.add_1_r, inject_Z_plus. reflexivity. }
    set (N := inject_Z (Z.of_nat n)) in *.
    set (N' := inject_Z (Z.of_nat (S n))) in *.
    destruct (Math_min_spec (N * 0.02) 1) as [[Hm Hm']|[Hm Hm']];
      rewrite Hm' in Hp.
    + destruct (Math_min_spec (N' * 0.02) 1) as [[Hk ->]|[Hk ->]].
      * assert (Hl : progress tr < 1) by Lqa.lra.
        rewrite (Hlt Hl).
        destruct (Math_min_spec (progress tr + 0.02) 1) as [[_ ->]|[Hc _]];
          Lqa.lra.
      * destruct (Qlt_le_dec (progress tr) 1) as [Hl|Hl].
        -- rewrite (Hlt Hl).
           destruct (Math_min_spec (progress tr + 0.02) 1)
             as [[Hc _]|[_ ->]]; Lqa.lra.
        -- rewrite (Hge Hl). Lqa.lra.
    + assert (Hl : 1 <= progress tr) by Lqa.lra.
      rewrite (Hge Hl).
      destruct (Math_min_spec (N' * 0.02) 1) as [[Hk ->]|[Hk ->]]; Lqa.lra.
Qed.

(** X18.  A transition lasts exactly fifty rendered frames: [n] frames
    after a mode change its progress is min(n / 50, 1), so style lookups
    return the target profile from the fiftieth frame on and not before;
    [from] and [to] do not change on the way. *)
Theorem transition_lasts_fifty_frames (n : nat) (a b : OrbMode) :
  let tr := afterFrames n {| from := a; to := b; progress := 0 |} in
  from tr = a /\ to tr = b
  /\ progress tr == Math_min (inject_Z (Z.of_nat n) * 0.02) 1
  /\ (Qle_bool 1 (progress tr) = true <-> (50 <= n)%nat).
Proof.
  intros tr. destruct (afterFrames_progress n a b) as (Hf & Ht & Hp).
  fold tr in Hf, Ht, Hp.
  split; [exact Hf|]. split; [exact Ht|]. split; [exact Hp|].
  rewrite Qle_bool_iff, Hp.
  assert (Hn : (50 <= n)%nat <-> 50 <= inject_Z (Z.of_nat n)).
  { change 50 with (inject_Z 50). rewrite <- Zle_Qle. lia. }
  rewrite Hn.
  destruct (Math_min_spec (inject_Z (Z.of_nat n) * 0.02) 1)
    as [[Hk ->]|[Hk ->]]; split; intros H; Lqa.lra.
Qed.

Section FrameFacts.
Variable Math_sin Math_cos : Q -> Q.
Variable Math_random : nat -> Q.
Variable cfg : ParticleOrbConfig.
Variable audioData : option AudioData.

Local Abbreviation drawParticle :=
  (drawParticle Math_random cfg audioData).
Local Abbreviation loopBody := (loopBody Math_random cfg audioData).
Local Abbreviation render :=
  (render Math_sin Math_cos Math_random cfg audioData).

Lemma loop_draws (env : FrameEnv) (l : list (nat * Particle))
    (st : LoopState) :
  snd (fst (fold_left (loopBody env) l st))
  = (snd (fst st) + 3 * List.length l)%nat.
Proof.
  revert st. induction l as [|ip l IH]; intros st; simpl; [lia|].
  rewrite IH. destruct st as [[particles k] cmds].
  unfold ParticleOrb.loopBody.
  destruct (drawParticle env k (snd ip)) as [p' drawn]. simpl. lia.
Qed.

(** X19.  A rendered frame calls [Math.random] exactly three times for
    each particle; a frame skipped for want of a canvas calls it not at
    all, draws nothing and leaves the refs as they are. *)
Theorem frame_random_draws (canvas : option Canvas) (k : nat) (r : Refs) :
  snd (fst (render canvas k r))
  = match canvas with
    | Some _ => (k + 3 * List.length (particlesRef r))%nat
    | None => k
    end
  /\ (canvas = None -> render canvas k r = (r, k, [])).
Proof.
  destruct canvas as [canvas|]; [|split; reflexivity].
  split; [|discriminate].
  rewrite render_with_canvas. cbn [fst snd].
  now rewrite loop_draws, sortedParticles_length.
Qed.

Lemma drawParticle_glow (env : FrameEnv) (k : nat) (p : Particle) :
  Forall (glowIsFaint audioData) (snd (drawParticle env k p)).
Proof.
  unfold ParticleOrb.drawParticle. cbv zeta. cbn [snd].
  constructor; [exact I|].
  match goal with
  | |- context [Qle_bool ?fa 0.6] => set (FA := fa) in *
  end.
  assert (HFA : 0 <= FA <= 1) by (unfold FA, finalAlphaOf; apply clamp_unit).
  destruct (negb (Qle_bool FA 0.6) && negb (Qle_bool (amplitudeOf audioData) 0.1))
    eqn:Hb; [|constructor].
  apply andb_prop in Hb as [H1 H2].
  apply negb_true_iff in H1, H2.
  assert (H1' : 0.6 < FA).
  { apply Qnot_le_lt. intros H. apply Qle_bool_iff in H. congruence. }
  assert (H2' : 0.1 < amplitudeOf audioData).
  { apply Qnot_le_lt. intros H. apply Qle_bool_iff in H. congruence. }
  constructor; [|constructor]. cbn [glowIsFaint c_alpha].
  split; [exact H2'|]. split; Lqa.lra.
Qed.

Lemma loopBody_glow (env : FrameEnv) (st : LoopState) (ip : nat * Particle) :
  Forall (glowIsFaint audioData) (snd st) ->
  Forall (glowIsFaint audioData) (snd (loopBody env st ip)).
Proof.
  destruct st as [[particles k] cmds]. cbn [snd]. intros H.
  unfold ParticleOrb.loopBody.
  pose proof (drawParticle_glow env k (snd ip)) as Hd.
  destruct (drawParticle env k (snd ip)) as [p' drawn]. cbn [snd] in *.
  apply Forall_app. now split.
Qed.

(** X20.  A glow circle is drawn only when the amplitude is above 0.1,
    and then with an alpha above 0.12 and at most 0.2; so with no audio,
    or a quiet one, a frame has no glow circle at all. *)
Theorem glow_only_over_loud_audio
    (canvas : option Canvas) (k : nat) (r : Refs) :
  let cmds := snd (render canvas k r) in
  Forall (glowIsFaint audioData) cmds
  /\ (amplitudeOf audioData <= 0.1 -> filter isGlow cmds = []).
Proof.
  intros cmds.
  assert (H : Forall (glowIsFaint audioData) cmds).
  { unfold cmds. destruct canvas as [canvas|]; [|constructor].
    rewrite render_with_canvas. cbn [snd].
    apply Forall_app. split; [|repeat constructor].
    apply fold_left_invariant.
    - intros st ip. apply loopBody_glow.
    - repeat constructor. }
  split; [exact H|]. intros Hq.
  induction H as [|cmd l Hc _ IH]; [reflexivity|].
  destruct cmd; cbn [filter isGlow]; try exact IH.
  destruct Hc as [Hloud _]. exfalso. Lqa.lra.
Qed.

End FrameFacts.

Lemma glow_only_over_loud_audio_witness :
  amplitudeOf None <= 0.1
  /\ filter isGlow firstFrame = [].
Proof.
  assert (H : amplitudeOf None <= 0.1) by discriminate.
  split; [exact H|].
  exact (proj2 (glow_only_over_loud_audio sinAround0 cosAround0 randomCycle
                  twoParticles None (Some {| width := 400; height := 400 |})
                  0%nat (mount idle [farParticle; nearParticle])) H).
Defined.

(** ** The sorted copy *)

Lemma insertByZ_perm (a : nat * Particle) (l : list (nat * Particle)) :
  Permutation (insertByZ a l) (a :: l).
Proof.
  induction l as [|b l IH]; simpl; [reflexivity|].
  destruct (Qle_bool _ _); [reflexivity|].
  rewrite IH. apply perm_swap.
Qed.

Lemma sortByZ_perm (l : list (nat * Particle)) : Permutation (sortByZ l) l.
Proof.
  unfold sortByZ. induction l as [|a l IH]; simpl; [reflexivity|].
  rewrite insertByZ_perm. now constructor.
Qed.

Lemma indexed_nth (particles : list Particle) (i : nat) (p : Particle) :
  In (i, p) (indexed particles) -> nth_error particles i = Some p.
Proof.
  unfold indexed.
  assert (H : forall a l, In (i, p) (combine (seq a (List.length l)) l) ->
                          (a <= i)%nat /\ nth_error l (i - a) = Some p).
  { intros a l. revert a. induction l as [|q l IH]; intros a; simpl.
    - contradiction.
    - intros [Heq|Hin].
      + injection Heq as <- <-. split; [lia|]. now rewrite Nat.sub_diag.
      + destruct (IH (S a) Hin) as [Hle Hn]. split; [lia|].
        replace (i - a)%nat with (S (i - S a)) by lia. exact Hn. }
  intros Hin. destruct (H 0%nat particles Hin) as [_ Hn].
  now rewrite Nat.sub_0_r in Hn.
Qed.

Lemma indexed_maps (particles : list Particle) :
  map snd (indexed particles) = particles
  /\ map fst (indexed particles) = seq 0 (List.length particles).
Proof.
  unfold indexed. generalize 0%nat.
  induction particles as [|p l IH]; intros a; simpl; [split; reflexivity|].
  destruct (IH (S a)) as [H1 H2]. now rewrite H1, H2.
Qed.


(** ** What a frame does to the particles *)

Lemma fold_left_invariant_In {A B} (P : A -> Prop) (f : A -> B -> A)
    (l : list B) (a : A) :
  (forall a b, In b l -> P a -> P (f a b)) -> P a -> P (fold_left f l a).
Proof.
  revert a. induction l as [|b l IH]; intros a Hf Ha; simpl; [exact Ha|].
  apply IH.
  - intros a' b' Hb'. apply Hf. now right.
  - apply Hf; [now left | exact Ha].
Qed.

Lemma Forall2_store {A} (R : A -> Particle -> Prop) (l1 : list A)
    (l2 : list Particle) (i : nat) (p : Particle) :
  Forall2 R l1 l2 ->
  (forall a, nth_error l1 i = Some a -> R a p) ->
  Forall2 R l1 (store i p l2).
Proof.
  intros H. revert i. induction H as [|a q l1 l2 Haq H IH]; intros i Hi.
  - destruct i; constructor.
  - destruct i as [|i]; simpl.
    + constructor; [now apply Hi | exact H].
    + constructor; [exact Haq|]. apply IH. intros a' Ha'. now apply Hi.
Qed.

Lemma sorted_entry (particles : list Particle) (ip : nat * Particle) :
  In ip (sortedParticles particles) ->
  nth_error particles (fst ip) = Some (snd ip).
Proof.
  intros Hin. destruct ip as [i p]. apply indexed_nth.
  eapply Permutation_in; [apply sortByZ_perm | exact Hin].
Qed.

Lemma Qrem_bounds (a b : Q) : 0 <= a -> 0 < b -> 0 <= Qrem a b < b.
Proof.
  intros Ha Hb. unfold Qrem.
  set (q := a / b).
  assert (Hq : 0 <= q).
  { unfold q. apply Qle_shift_div_l; [exact Hb|]. now rewrite Qmult_0_l. }
  assert (Hquot : Z.quot (Qnum q) (Z.pos (Qden q)) = Qfloor q).
  { unfold Qfloor. destruct q as [n d]. simpl.
    apply Z.quot_div_nonneg; [|reflexivity].
    unfold Qle in Hq. simpl in Hq. lia. }
  rewrite Hquot.
  pose proof (Qfloor_le q) as Hlo. pose proof (Qlt_floor q) as Hhi.
  rewrite inject_Z_plus in Hhi. change (inject_Z 1) with 1 in Hhi.
  assert (Hab : a == q * b).
  { unfold q. field. intros H0. rewrite H0 in Hb. discriminate. }
  set (f := inject_Z (Qfloor q)) in *.
  split.
  - assert (f * b <= q * b) by (apply Qmult_le_compat_r; Lqa.lra).
    Lqa.lra.
  - assert (q * b < (f + 1) * b)
      by (apply Qmult_lt_compat_r; [exact Hb | exact Hhi]).
    Lqa.lra.
Qed.

(** The base hue of a frame is between the lowest and the highest hue of
    the four palettes. *)
Lemma frame_hue_range (tr : ModeTransition) :
  0 <= progress tr <= 1 -> 45 <= hue (getModeColor tr) <= 270.
Proof.
  intros Hp. unfold getModeColor.
  destruct (Qle_bool 1 (progress tr)).
  - destruct (to tr); simpl; split; discriminate.
  - unfold lerp. set (t := progress tr) in *.
    destruct (from tr), (to tr); simpl; split; Lqa.lra.
Qed.

Lemma jitter_term_bound (r J : Q) :
  0 <= r < 1 -> 0 <= J -> - (J / 2) <= (r - 0.5) * J <= J / 2.
Proof.
  intros [H0 H1] HJ.
  assert (P : 0 <= r * J) by (apply Qmult_le_0_compat; assumption).
  assert (P' : 0 <= (1 - r) * J) by (apply Qmult_le_0_compat; Lqa.lra).
  assert (E1 : (r - 0.5) * J == r * J - J / 2) by field.
  assert (E2 : (1 - r) * J == J - r * J) by ring.
  rewrite E1. rewrite E2 in P'.
  generalize dependent (r * J). intros m. intros. split; Lqa.lra.
Qed.

Lemma step_offset (x b d pu jit : Q) :
  x + ((b * d * pu - x) * 0.1 + jit) - b * (d * pu)
  - 0.9 * (x - b * (d * pu)) == jit.
Proof. ring. Qed.

Section ParticleStep.
Variable Math_sin Math_cos : Q -> Q.
Variable Math_random : nat -> Q.
Variable cfg : ParticleOrbConfig.
Variable audioData : option AudioData.

Local Abbreviation drawParticle :=
  (drawParticle Math_random cfg audioData).
Local Abbreviation loopBody := (loopBody Math_random cfg audioData).
Local Abbreviation render :=
  (render Math_sin Math_cos Math_random cfg audioData).

Lemma drawParticle_identity (env : FrameEnv) (k : nat) (p : Particle) :
  sameIdentity p (fst (drawParticle env k p)).
Proof. unfold ParticleOrb.drawParticle, sameIdentity. now cbn. Qed.

(** X22.  A frame moves the particles and nothing else: the array keeps
    its length and, index by index, every particle keeps its base
    position, size, alpha and hue offset. *)
Theorem frame_keeps_particle_identity
    (canvas : option Canvas) (k : nat) (r : Refs) :
  Forall2 sameIdentity (particlesRef r)
          (particlesRef (fst (fst (render canvas k r)))).
Proof.
  assert (Hrefl : forall l, Forall2 sameIdentity l l).
  { induction l; constructor; [now repeat split | assumption]. }
  destruct canvas as [canvas|]; [|apply Hrefl].
  rewrite render_with_canvas. cbn [fst particlesRef].
  apply (fold_left_invariant_In
           (fun st => Forall2 sameIdentity (particlesRef r) (fst (fst st)))).
  - intros [[particles k'] cmds] ip Hin H. cbn [fst] in *.
    unfold ParticleOrb.loopBody.
    pose proof (drawParticle_identity
                  (frameEnv Math_sin Math_cos cfg audioData canvas r)
                  k' (snd ip)) as Hid.
    destruct (drawParticle _ k' (snd ip)) as [p' drawn]. cbn [fst] in *.
    apply Forall2_store; [exact H|].
    intros a Ha. rewrite (sorted_entry _ _ Hin) in Ha.
    injection Ha as <-. exact Hid.
  - apply Hrefl.
Qed.

Lemma drawParticle_hue (env : FrameEnv) (k : nat) (p : Particle) :
  0 <= hue (color env) + (p_hue p + trebleOf audioData * 30) + 360 ->
  Forall hueInCircle (snd (drawParticle env k p)).
Proof.
  intros H. pose proof (Qrem_bounds _ 360 H eq_refl) as Hb.
  unfold ParticleOrb.drawParticle. cbv zeta. cbn [snd].
  constructor; [exact Hb|].
  match goal with |- context [if ?b then _ else _] => destruct b end;
    [constructor; [exact Hb | constructor] | constructor].
Qed.

(** X23.  In every state the component can reach, with a treble energy
    that is not negative and hue offsets of at least -15 (as
    [createParticles] draws them), the hue of every circle of a frame is
    an angle in [0, 360). *)
Theorem frame_hues_in_circle
    (canvas : option Canvas) (k : nat) (r : Refs) :
  reachable r ->
  0 <= trebleOf audioData ->
  Forall (fun p => -15 <= p_hue p) (particlesRef r) ->
  Forall hueInCircle (snd (render canvas k r)).
Proof.
  intros Hr Ht Hh.
  destruct canvas as [canvas|]; [|constructor].
  rewrite render_with_canvas. cbn [snd].
  apply Forall_app. split; [|repeat constructor].
  destruct (reachable_invariant r Hr) as [_ Hp].
  pose proof (frame_hue_range _ Hp) as Hc.
  apply (fold_left_invariant_In
           (fun st : LoopState => Forall hueInCircle (snd st))).
  - intros [[particles k'] cmds] ip Hin H. cbn [snd] in *.
    unfold ParticleOrb.loopBody.
    assert (Hd : Forall hueInCircle
                   (snd (drawParticle
                           (frameEnv Math_sin Math_cos cfg audioData canvas r)
                           k' (snd ip)))).
    { apply drawParticle_hue. cbn [color frameEnv].
      apply sorted_entry, nth_error_In in Hin.
      rewrite Forall_forall in Hh. specialize (Hh _ Hin). Lqa.lra. }
    destruct (drawParticle _ k' (snd ip)) as [p' drawn]. cbn [snd] in *.
    apply Forall_app. now split.
  - repeat constructor.
Qed.

(** X24.  Each frame pulls a particle towards its target and shakes it
    by a bounded amount: for random draws in [0,1) and a jitter width
    that is not negative, the offset of each coordinate from its target
    (the base coordinate scaled by the audio displacement and the pulse)
    becomes nine tenths of what it was, give or take half the jitter
    width. *)
Theorem particle_step_contracts (env : FrameEnv) (k : nat) (p : Particle) :
  0 <= jitterAmountOf audioData (params env) ->
  (forall j, (k <= j < k + 3)%nat -> 0 <= Math_random j < 1) ->
  let p' := fst (drawParticle env k p) in
  let scale := audioDisplaceOf audioData * pulse env in
  let half := jitterAmountOf audioData (params env) / 2 in
  contracts half (p_x p - p_baseX p * scale) (p_x p' - p_baseX p * scale)
  /\ contracts half (p_y p - p_baseY p * scale) (p_y p' - p_baseY p * scale)
  /\ contracts half (p_z p - p_baseZ p * scale) (p_z p' - p_baseZ p * scale).
Proof.
  intros HJ Hrnd.
  pose proof (Hrnd k ltac:(lia)) as H0.
  pose proof (Hrnd (k + 1)%nat ltac:(lia)) as H1.
  pose proof (Hrnd (k + 2)%nat ltac:(lia)) as H2.
  unfold ParticleOrb.drawParticle, contracts, jitterAmountOf,
    audioDisplaceOf in *.
  cbv zeta. cbn [fst p_x p_y p_z].
  set (J := jitter (params env)
            * (1 + amplitudeOf audioData * 2 + trebleOf audioData * 1.5)) in *.
  set (D := if isVoiceActiveOf audioData
            then 1 + midOf audioData * 0.5 else 1).
  set (r0 := Math_random k) in *.
  set (r1 := Math_random (k + 1)%nat) in *.
  set (r2 := Math_random (k + 2)%nat) in *.
  rewrite !step_offset.
  repeat split; apply jitter_term_bound; assumption.
Qed.

End ParticleStep.

Lemma frame_hues_in_circle_witness :
  reachable (mount idle [farParticle; nearParticle])
  /\ 0 <= trebleOf None
  /\ Forall (fun p => -15 <= p_hue p) [farParticle; nearParticle]
  /\ Forall hueInCircle firstFrame.
Proof.
  assert (H1 : reachable (mount idle [farParticle; nearParticle]))
    by apply reach_mount.
  assert (H2 : 0 <= trebleOf None) by discriminate.
  assert (H3 : Forall (fun p => -15 <= p_hue p) [farParticle; nearParticle])
    by (repeat constructor; discriminate).
  do 3 (split; [assumption|]).
  exact (frame_hues_in_circle sinAround0 cosAround0 randomCycle twoParticles
           None (Some {| width := 400; height := 400 |}) 0%nat
           (mount idle [farParticle; nearParticle]) H1 H2 H3).
Defined.

Lemma particle_step_contracts_witness :
  0 <= jitterAmountOf None (MODE_PARAMS idle)
  /\ (forall j, (0 <= j < 0 + 3)%nat -> 0 <= randomCycle j < 1)
  /\ contracts (jitterAmountOf None (MODE_PARAMS idle) / 2)
       (p_z nearParticle - p_baseZ nearParticle * (1 * 1))
       (p_z (fst (drawParticle randomCycle twoParticles None
                    (frameEnv sinAround0 cosAround0 twoParticles None
                       {| width := 400; height := 400 |}
                       (mount idle [farParticle; nearParticle]))
                    0%nat nearParticle))
        - p_baseZ nearParticle * (1 * 1)).
Proof.
  assert (H1 : 0 <= jitterAmountOf None (MODE_PARAMS idle)) by discriminate.
  assert (H2 : forall j, (0 <= j < 0 + 3)%nat -> 0 <= randomCycle j < 1).
  { intros j Hj.
    assert (Hc : j = 0%nat \/ j = 1%nat \/ j = 2%nat) by lia.
    destruct Hc as [-> | [-> | ->]]; split; reflexivity || discriminate. }
  split; [exact H1|]. split; [exact H2|].
  exact (proj2 (proj2
           (particle_step_contracts randomCycle twoParticles None
              (frameEnv sinAround0 cosAround0 twoParticles None
                 {| width := 400; height := 400 |}
                 (mount idle [farParticle; nearParticle]))
              0%nat nearParticle H1 H2))).
Defined.

End ParticleFieldFacts.

(** * The sphere lattice *)
Module LatticeFacts.
Import Lattice.
Open Scope R_scope.

(** The argument of [Math.acos] is a cosine: it lies strictly between
    -1 and 1 for every index of the loop. *)
Lemma height_in_range (count i : nat) :
  (i < count)%nat ->
  -1 < 1 - 2 * (INR i + 0.5) / INR count < 1.
Proof.
  intros Hi.
  assert (Hc : 0 < INR count) by (apply lt_0_INR; lia).
  assert (H0 : 0 <= INR i) by apply pos_INR.
  assert (H1 : INR i + 1 <= INR count).
  { rewrite <- S_INR. apply le_INR. lia. }
  set (v := (INR i + 0.5) / INR count).
  assert (Hv : v * INR count = INR i + 0.5).
  { unfold v. field. Lra.lra. }
  replace (2 * (INR i + 0.5) / INR count) with (2 * v)
    by (unfold v; field; Lra.lra).
  assert (0 < v < 1); [|Lra.lra].
  split.
  - unfold v. apply Rdiv_lt_0_compat; Lra.lra.
  - apply (Rmult_lt_reg_r (INR count)); [exact Hc|]. rewrite Hv. Lra.lra.
Qed.

(** X25.  [createParticles(count, radius)] places [count] positions, each
    on the sphere of the given radius about the origin, at heights that
    step down evenly from just under [radius] to just above [-radius]:
    the i-th has z = radius (1 - (2 i + 1) / count). *)
Theorem lattice_on_sphere (count : nat) (radius : R) (i : nat) :
  (i < count)%nat ->
  List.length (positions count radius) = count
  /\ nth_error (positions count radius) i = Some (position count radius i)
  /\ let '(x, y, z) := position count radius i in
     x * x + y * y + z * z = radius * radius
     /\ z = radius * (1 - (2 * INR i + 1) / INR count).
Proof.
  intros Hi. unfold positions.
  split; [now rewrite length_map, length_seq|]. split.
  - rewrite nth_error_map, nth_error_seq.
    destruct (Nat.ltb_spec i count); [reflexivity | lia].
  - unfold position.
    pose proof (height_in_range count i Hi) as Hu.
    assert (Hcos : cos (phi count i)
                   = 1 - 2 * (INR i + 0.5) / INR count).
    { unfold phi. apply cos_acos. Lra.lra. }
    pose proof (sin2_cos2 (phi count i)) as Hp.
    pose proof (sin2_cos2 (theta i)) as Ht.
    unfold Rsqr in Hp, Ht. split.
    + set (sp := sin (phi count i)) in *. set (cp := cos (phi count i)) in *.
      set (st := sin (theta i)) in *. set (ct := cos (theta i)) in *.
      replace (radius * sp * ct * (radius * sp * ct)
               + radius * sp * st * (radius * sp * st)
               + radius * cp * (radius * cp))
        with (radius * radius * (sp * sp * (st * st + ct * ct) + cp * cp))
        by ring.
      rewrite Ht, Rmult_1_r, Hp. ring.
    + rewrite Hcos.
      replace (2 * (INR i + 0.5)) with (2 * INR i + 1) by Lra.lra.
      reflexivity.
Qed.

Lemma lattice_on_sphere_witness :
  (1 < 2)%nat
  /\ nth_error (positions 2 120) 1 = Some (position 2 120 1).
Proof.
  assert (H : (1 < 2)%nat) by lia.
  split; [exact H|].
  exact (proj1 (proj2 (lattice_on_sphere 2 120 1 H))).
Defined.

End LatticeFacts.
